(** * Bento Blocks rules engine (web-app/bento_blocks.js)

    A shallow embedding of the engine's board, pieces and placement
    operations, and the properties of the engine stated over it.

    Conventions.
    - JS numbers that the engine only uses as integers (coordinates,
      player ids, scores, rotation counts) are [Z].
    - A JS exception is an [outcome]: [Throw TypeError] for a property
      read on [undefined], [Throw (Error msg)] for [throw new Error(msg)].
    - [undefined] read from an array is [None].
    - [Date.now()] is an explicit argument [now] of [placePiece]. *)

From stdpp Require Import base list sets strings.
From Stdlib Require Import ZArith Lia.

Local Open Scope Z_scope.

(** ** Exceptions *)

Inductive error : Type :=
| TypeError
| Error (msg : string).

Inductive outcome (A : Type) : Type :=
| Ret (a : A)
| Throw (e : error).

Arguments Ret {A} a.
Arguments Throw {A} e.

#[global] Instance outcome_ret : MRet outcome := fun _ a => Ret a.

#[global] Instance outcome_bind : MBind outcome := fun _ _ k m =>
  match m with
  | Ret a => k a
  | Throw e => Throw e
  end.

(** The two errors the engine raises itself. *)
Definition IllegalMove : error := Error "Invalid piece placement".
Definition InvalidArgument : error := Error "Invalid board or player count".

(** ** Data model *)

Definition Cell : Type := Z * Z.
Definition Shape : Type := list Cell.

Module Piece.
Record t : Type := mk {
  id : string;
  shape : Shape;
  used : bool;
  rotation : Z;
  flipped : bool
}.
End Piece.

Module Player.
Record t : Type := mk {
  id : Z;
  score : Z;
  pieces : list Piece.t;
  color : string
}.
End Player.

Module Move.
Record t : Type := mk {
  playerId : Z;
  pieceId : string;
  position : Z * Z;
  shape : Shape;
  timestamp : Z
}.
End Move.

Inductive GAME_STATUS : Type := WAITING | IN_PROGRESS | FINISHED.

(** A board, over the representation [Row] of a grid row.  The engine's
    functions are first written over boards whose rows are values
    ([Board.t]); [Module Heap] below uses rows that are references to
    arrays in a store, to follow the in-place stores of [placePiece]. *)
Module Board.
Record gen (Row : Type) : Type := mk {
  grid : list Row;
  size : Z;
  players : list Player.t;
  currentPlayer : option Z;
  status : GAME_STATUS;
  moveHistory : list Move.t;
  lastMove : option Move.t
}.
Arguments mk {Row}.
Arguments grid {Row}.
Arguments size {Row}.
Arguments players {Row}.
Arguments currentPlayer {Row}.
Arguments status {Row}.
Arguments moveHistory {Row}.
Arguments lastMove {Row}.
Definition t : Type := gen (list Z).
End Board.

#[global] Instance GAME_STATUS_eq_dec : EqDecision GAME_STATUS.
Proof. solve_decision. Defined.

(** ** Constants *)

Definition BOARD_SIZE : Z := 20.

(** [PIECE_SHAPES], in the key order of the object literal. *)
Definition PIECE_SHAPES : list (string * Shape) :=
  [ ("I1", [(0, 0)]);
    ("I2", [(0, 0); (1, 0)]);
    ("I3", [(0, 0); (1, 0); (2, 0)]);
    ("L3", [(0, 0); (1, 0); (0, 1)]);
    ("I4", [(0, 0); (1, 0); (2, 0); (3, 0)]);
    ("L4", [(0, 0); (1, 0); (2, 0); (0, 1)]);
    ("O4", [(0, 0); (1, 0); (0, 1); (1, 1)]);
    ("S4", [(0, 0); (1, 0); (1, 1); (2, 1)]);
    ("T4", [(0, 0); (1, 0); (2, 0); (1, 1)]);
    ("I5", [(0, 0); (1, 0); (2, 0); (3, 0); (4, 0)]);
    ("L5", [(0, 0); (1, 0); (2, 0); (3, 0); (0, 1)]);
    ("N5", [(0, 0); (1, 0); (1, 1); (2, 1); (3, 1)]);
    ("P5", [(0, 0); (1, 0); (0, 1); (1, 1); (0, 2)]);
    ("T5", [(0, 0); (1, 0); (2, 0); (1, 1); (1, 2)]);
    ("U5", [(0, 0); (2, 0); (0, 1); (1, 1); (2, 1)]);
    ("V5", [(0, 0); (0, 1); (0, 2); (1, 2); (2, 2)]);
    ("W5", [(0, 0); (0, 1); (1, 1); (1, 2); (2, 2)]);
    ("X5", [(1, 0); (0, 1); (1, 1); (2, 1); (1, 2)]);
    ("Y5", [(0, 0); (1, 0); (1, 1); (1, 2); (1, 3)]);
    ("Z5", [(0, 0); (1, 0); (1, 1); (1, 2); (2, 2)]);
    ("F5", [(1, 0); (2, 0); (0, 1); (1, 1); (1, 2)]) ].

(** ** Array reads *)

(** [arr[i]] for an integer [i]: [None] is [undefined]. *)
Definition index {A : Type} (arr : list A) (i : Z) : option A :=
  if decide (0 <= i) then arr !! Z.to_nat i else None.

(** [Math.min(...xs)].  On the empty list JS gives [Infinity]; the engine
    only subtracts the result from the cells of the same (then empty)
    list, so the value chosen here for that case is never used. *)
Definition math_min (xs : list Z) : Z :=
  match xs with
  | [] => 0
  | x :: rest => foldr Z.min x rest
  end.

(** ** Construction *)

Definition getAllPieces : list Piece.t :=
  (fun entry : string * Shape =>
     Piece.mk entry.1 entry.2 false 0 false) <$> PIECE_SHAPES.

Definition createBoard : Board.t :=
  Board.mk
    (replicate (Z.to_nat BOARD_SIZE) (replicate (Z.to_nat BOARD_SIZE) 0))
    BOARD_SIZE
    [ Player.mk 1 0 getAllPieces "red";
      Player.mk 2 0 getAllPieces "blue";
      Player.mk 3 0 getAllPieces "yellow";
      Player.mk 4 0 getAllPieces "purple" ]
    (Some 1)
    WAITING
    []
    None.

(** [startGame(board, playerCount)]; an absent board is [None]. *)
Definition startGame (board : option Board.t) (playerCount : Z)
  : outcome Board.t :=
  match board with
  | None => Throw InvalidArgument
  | Some b =>
      if (playerCount <? 2) || (4 <? playerCount) then Throw InvalidArgument
      else Ret (Board.mk
                  (Board.grid b)
                  (Board.size b)
                  (take (Z.to_nat playerCount) (Board.players b))
                  (Some 1)
                  IN_PROGRESS
                  (Board.moveHistory b)
                  (Board.lastMove b))
  end.

(** ** Geometry *)

Definition isValidPosition (row col : Z) (board : Board.t) : bool :=
  (0 <=? row) && (row <? Board.size board) &&
  (0 <=? col) && (col <? Board.size board).

(** [board.grid[row][col]]: reading a column of a missing row throws. *)
Definition readCell (board : Board.t) (row col : Z) : outcome (option Z) :=
  match index (Board.grid board) row with
  | None => Throw TypeError
  | Some r => Ret (index r col)
  end.

(** [v === n] for a cell value [v] that may be [undefined]. *)
Definition strictEq (v : option Z) (n : Z) : bool :=
  match v with
  | Some x => x =? n
  | None => false
  end.

Definition isCellEmpty (row col : Z) (board : Board.t) : outcome bool :=
  if negb (isValidPosition row col board) then Ret false
  else v ← readCell board row col; Ret (strictEq v 0).

Definition normalize (cells : Shape) : Shape :=
  let minX := math_min (fst <$> cells) in
  let minY := math_min (snd <$> cells) in
  (fun c : Cell => (c.1 - minX, c.2 - minY)) <$> cells.

Definition rotatePiece (shape : Shape) : Shape :=
  normalize ((fun c : Cell => (c.2, - c.1)) <$> shape).

Definition flipPiece (shape : Shape) : Shape :=
  normalize ((fun c : Cell => (- c.1, c.2)) <$> shape).

(** The loop [for (i = 0; i < piece.rotation; i++)] runs
    [max 0 rotation] times. *)
Definition getTransformedShape (piece : Piece.t) : Shape :=
  let shape := Nat.iter (Z.to_nat (Piece.rotation piece)) rotatePiece
                        (Piece.shape piece) in
  if Piece.flipped piece then flipPiece shape else shape.

(** The cells [(row + dx, col + dy)] a shape covers when anchored. *)
Definition absCells (shape : Shape) (row col : Z) : list Cell :=
  (fun d : Cell => (row + d.1, col + d.2)) <$> shape.

(** ** Placement validation *)

Definition findPlayer (board : Board.t) (playerId : Z) : option Player.t :=
  List.find (fun p => Player.id p =? playerId) (Board.players board).

(** The bounds-and-emptiness loop of [canPlacePiece], over the absolute
    cells; [Ret false] is the early [return false]. *)
Fixpoint cellsFree (board : Board.t) (cells : list Cell) : outcome bool :=
  match cells with
  | [] => Ret true
  | (newRow, newCol) :: rest =>
      if negb (isValidPosition newRow newCol board) then Ret false
      else
        e ← isCellEmpty newRow newCol board;
        if negb e then Ret false else cellsFree board rest
  end.

Definition touchesCorner (shape : Shape) (row col : Z) (board : Board.t)
  : bool :=
  let corners := [ (0, 0); (0, Board.size board - 1);
                   (Board.size board - 1, 0);
                   (Board.size board - 1, Board.size board - 1) ] in
  existsb (fun n : Cell =>
             existsb (fun c : Cell => (n.1 =? c.1) && (n.2 =? c.2)) corners)
          (absCells shape row col).

(** The common loop of [touchesPlayerCorner] and [touchesPlayerEdge]:
    the first in-range neighbour holding [playerId] returns [true]. *)
Fixpoint touchesAt (deltas : list Cell) (row col : Z) (board : Board.t)
  (playerId : Z) : outcome bool :=
  match deltas with
  | [] => Ret false
  | (dx, dy) :: rest =>
      let checkRow := row + dx in
      let checkCol := col + dy in
      if isValidPosition checkRow checkCol board then
        v ← readCell board checkRow checkCol;
        if strictEq v playerId then Ret true
        else touchesAt rest row col board playerId
      else touchesAt rest row col board playerId
  end.

Definition cornerDeltas : list Cell := [ (-1, -1); (-1, 1); (1, -1); (1, 1) ].
Definition edgeDeltas : list Cell := [ (-1, 0); (1, 0); (0, -1); (0, 1) ].

Definition touchesPlayerCorner (row col : Z) (board : Board.t) (playerId : Z)
  : outcome bool :=
  touchesAt cornerDeltas row col board playerId.

Definition touchesPlayerEdge (row col : Z) (board : Board.t) (playerId : Z)
  : outcome bool :=
  touchesAt edgeDeltas row col board playerId.

(** The scanning loop of [isValidPlacement]; the pair is
    [(touchesCorner, touchesEdge)].  Every cell is visited. *)
Fixpoint scanTouches (board : Board.t) (cells : list Cell) (playerId : Z)
  (flags : bool * bool) : outcome (bool * bool) :=
  match cells with
  | [] => Ret flags
  | (newRow, newCol) :: rest =>
      c ← touchesPlayerCorner newRow newCol board playerId;
      e ← touchesPlayerEdge newRow newCol board playerId;
      scanTouches board rest playerId
        (if c : bool then true else flags.1,
         if e : bool then true else flags.2)
  end.

Definition isValidPlacement (board : Board.t) (shape : Shape) (row col : Z)
  (playerId : Z) : outcome bool :=
  match findPlayer board playerId with
  | None => Throw TypeError
  | Some player =>
      let placedPieces := List.filter Piece.used (Player.pieces player) in
      if (length placedPieces =? 0)%nat then
        Ret (touchesCorner shape row col board)
      else
        flags ← scanTouches board (absCells shape row col) playerId
                  (false, false);
        Ret (flags.1 && negb flags.2)
  end.

Definition canPlacePiece (board : Board.t) (piece : Piece.t) (row col : Z)
  (playerId : Z) : outcome bool :=
  if Piece.used piece then Ret false
  else
    let shape := getTransformedShape piece in
    match findPlayer board playerId with
    | None => Ret false
    | Some player =>
        free ← cellsFree board (absCells shape row col);
        if free : bool then isValidPlacement board shape row col playerId
        else Ret false
    end.

(** ** Mutation *)

(** [arr[i] = v] on a copy.  For an [i] that is not an index of [arr] JS
    would grow the array or add a property; lists do not model that, and
    the engine never does it: [placePiece] stores only into cells that
    [canPlacePiece] has just read as [0] (lemma [stamp_checked] below).
    The list is returned as it is in that case. *)
Definition store {A : Type} (arr : list A) (i : Z) (v : A) : list A :=
  if decide (0 <= i < Z.of_nat (length arr)) then <[Z.to_nat i := v]> arr
  else arr.

(** [newGrid[r][c] = v]: storing into a missing row throws. *)
Definition writeCell (newGrid : list (list Z)) (r c v : Z)
  : outcome (list (list Z)) :=
  match index newGrid r with
  | None => Throw TypeError
  | Some rowArr => Ret (store newGrid r (store rowArr c v))
  end.

(** The loop [for ([dx, dy] of shape) newGrid[row+dx][col+dy] = playerId]. *)
Fixpoint stamp (newGrid : list (list Z)) (cells : list Cell) (playerId : Z)
  : outcome (list (list Z)) :=
  match cells with
  | [] => Ret newGrid
  | (r, c) :: rest =>
      g ← writeCell newGrid r c playerId;
      stamp g rest playerId
  end.

(** [xs.indexOf(x)]. *)
Definition indexOf (xs : list Z) (x : Z) : Z :=
  match list_find (fun y => y = x) xs with
  | Some (i, _) => Z.of_nat i
  | None => -1
  end.

(** [(currentIndex + 1) % playerIds.length] is [NaN] for an empty player
    list, and [playerIds[NaN]] is [undefined]. *)
Definition getNextPlayer (board : Board.t) (currentPlayerId : Z) : option Z :=
  let playerIds := Player.id <$> Board.players board in
  let currentIndex := indexOf playerIds currentPlayerId in
  if decide (length playerIds = 0%nat) then None
  else
    let nextIndex := Z.rem (currentIndex + 1) (Z.of_nat (length playerIds)) in
    index playerIds nextIndex.

(** [p.id === piece.id ? { ...p, used: true } : p]. *)
Definition markUsed (piece p : Piece.t) : Piece.t :=
  if String.eqb (Piece.id p) (Piece.id piece) then
    Piece.mk (Piece.id p) (Piece.shape p) true (Piece.rotation p)
             (Piece.flipped p)
  else p.

(** The callback of [board.players.map] in [placePiece]. *)
Definition updatePlayer (piece : Piece.t) (shape : Shape) (playerId : Z)
  (player : Player.t) : Player.t :=
  if Player.id player =? playerId then
    let newPieces := markUsed piece <$> Player.pieces player in
    Player.mk (Player.id player)
              (Player.score player + Z.of_nat (length shape))
              newPieces
              (Player.color player)
  else player.

Definition placePiece (now : Z) (board : Board.t) (piece : Piece.t)
  (row col : Z) (playerId : Z) : outcome Board.t :=
  ok ← canPlacePiece board piece row col playerId;
  if negb ok then Throw IllegalMove
  else
    let shape := getTransformedShape piece in
    newGrid ← stamp (Board.grid board) (absCells shape row col) playerId;
    let newPlayers := updatePlayer piece shape playerId <$> Board.players board in
    let move := Move.mk playerId (Piece.id piece) (row, col) shape now in
    Ret (Board.mk newGrid
                  (Board.size board)
                  newPlayers
                  (getNextPlayer board playerId)
                  (Board.status board)
                  (Board.moveHistory board ++ [move])
                  (Some move)).

(** ** Move availability and termination *)

(** First [Ret true] of [f] over [xs], in order; an exception stops the
    search. *)
Fixpoint anyM {A : Type} (f : A -> outcome bool) (xs : list A)
  : outcome bool :=
  match xs with
  | [] => Ret false
  | x :: rest => b ← f x; if b : bool then Ret true else anyM f rest
  end.

Definition canPlayerMove (board : Board.t) (playerId : Z) : outcome bool :=
  match findPlayer board playerId with
  | None => Ret false
  | Some player =>
      let availablePieces :=
        List.filter (fun p => negb (Piece.used p)) (Player.pieces player) in
      let positions := seqZ 0 (Board.size board) in
      anyM (fun piece =>
        anyM (fun rotation =>
          anyM (fun flipped =>
            let testPiece := Piece.mk (Piece.id piece) (Piece.shape piece)
                               (Piece.used piece) rotation flipped in
            anyM (fun row =>
              anyM (fun col =>
                canPlacePiece board testPiece row col playerId)
                positions)
              positions)
            [false; true])
          [0; 1; 2; 3])
        availablePieces
  end.

Definition isGameOver (board : Board.t) : outcome bool :=
  if decide (Board.status board ≠ IN_PROGRESS) then
    Ret (bool_decide (Board.status board = FINISHED))
  else
    moves ← anyM (fun player => canPlayerMove board (Player.id player))
                 (Board.players board);
    Ret (negb moves).

(** ** Winners and the state summary *)

(** [Math.max(...xs)]; [None] stands for [-Infinity], its value on the
    empty list. *)
Definition Math_max (xs : list Z) : option Z :=
  match xs with
  | [] => None
  | x :: rest => Some (foldr Z.max x rest)
  end.

(** [getWinner(board)]; the inner [None] is [null]. *)
Definition getWinner (board : Board.t) : outcome (option (list Player.t)) :=
  over ← isGameOver board;
  if negb over then Ret None
  else
    let maxScore := Math_max (Player.score <$> Board.players board) in
    Ret (Some (List.filter (fun p => strictEq maxScore (Player.score p))
                           (Board.players board))).

Module PlayerSummary.
Record t : Type := mk {
  id : Z;
  score : Z;
  color : string;
  remainingPieces : Z
}.
End PlayerSummary.

Module GameState.
Record t : Type := mk {
  status : GAME_STATUS;
  currentPlayer : option Z;
  players : list PlayerSummary.t;
  isGameOver : bool;
  winner : option (list Player.t);
  totalMoves : Z
}.
End GameState.

(** The callback of [board.players.map] in [getGameState]. *)
Definition summarize (p : Player.t) : PlayerSummary.t :=
  PlayerSummary.mk
    (Player.id p) (Player.score p) (Player.color p)
    (Z.of_nat (length (List.filter (fun piece => negb (Piece.used piece))
                                   (Player.pieces p)))).

(** [getGameState(board)]: the properties of the object literal are
    evaluated in order, so [isGameOver] runs (and may throw) before
    [getWinner]. *)
Definition getGameState (board : Board.t) : outcome GameState.t :=
  let players := summarize <$> Board.players board in
  over ← isGameOver board;
  winner ← getWinner board;
  Ret (GameState.mk (Board.status board) (Board.currentPlayer board)
                    players over winner
                    (Z.of_nat (length (Board.moveHistory board)))).

(** ** The store: rows as shared arrays

    [placePiece] is the only engine function that stores into an array
    ([newGrid[row + dx][col + dy] = playerId]).  To state what it leaves
    alone, row arrays are kept in a store and a board's grid is an array
    of references into it.  Player, piece and move objects are never
    assigned to by the engine (they are rebuilt with spread syntax) and
    stay values. *)
Module Heap.

Abbreviation loc := nat.
Abbreviation heap := (list (list Z)).
Abbreviation board := (Board.gen loc).

(** Every row reference of the board points into the store. *)
Definition allocated (h : heap) (b : board) : Prop :=
  Forall (fun l : loc => (l < length h)%nat) (Board.grid b).

(** The arrays a list of row references points to.  (A JS reference
    cannot dangle; [[]] stands for that case.) *)
Definition deref (h : heap) (rows : list loc) : list (list Z) :=
  (fun l : loc => h !!! l) <$> rows.

(** The board as the validation functions read it: every row reference
    followed. *)
Definition view (h : heap) (b : board) : Board.t :=
  Board.mk (deref h (Board.grid b))
           (Board.size b) (Board.players b) (Board.currentPlayer b)
           (Board.status b) (Board.moveHistory b) (Board.lastMove b).

(** [board.grid.map(row => [...row])]: one fresh array per row, holding a
    copy of the row's cells; the new grid refers to the fresh arrays. *)
Definition copyGrid (h : heap) (rows : list loc) : heap * list loc :=
  (h ++ deref h rows, seq (length h) (length rows)).

(** [newGrid[r][c] = v] in the store. *)
Definition writeCell (h : heap) (newGrid : list loc) (r c v : Z)
  : heap * outcome unit :=
  match index newGrid r with
  | None => (h, Throw TypeError)
  | Some l => (<[l := store (h !!! l) c v]> h, Ret ())
  end.

Fixpoint stamp (h : heap) (newGrid : list loc) (cells : list Cell)
  (playerId : Z) : heap * outcome unit :=
  match cells with
  | [] => (h, Ret ())
  | (r, c) :: rest =>
      match writeCell h newGrid r c playerId with
      | (h', Ret _) => stamp h' newGrid rest playerId
      | (h', Throw e) => (h', Throw e)
      end
  end.

(** [placePiece] with the store threaded through.  Validation only reads,
    so it runs on the view. *)
Definition placePiece (now : Z) (h : heap) (b : board) (piece : Piece.t)
  (row col : Z) (playerId : Z) : heap * outcome board :=
  match canPlacePiece (view h b) piece row col playerId with
  | Throw e => (h, Throw e)
  | Ret false => (h, Throw IllegalMove)
  | Ret true =>
      let shape := getTransformedShape piece in
      let '(h1, newGrid) := copyGrid h (Board.grid b) in
      match stamp h1 newGrid (absCells shape row col) playerId with
      | (h2, Throw e) => (h2, Throw e)
      | (h2, Ret _) =>
          let newPlayers :=
            updatePlayer piece shape playerId <$> Board.players b in
          let move := Move.mk playerId (Piece.id piece) (row, col) shape now in
          (h2, Ret (Board.mk newGrid
                             (Board.size b)
                             newPlayers
                             (getNextPlayer (view h b) playerId)
                             (Board.status b)
                             (Board.moveHistory b ++ [move])
                             (Some move)))
      end
  end.

End Heap.

(** ** Vocabulary of the specification *)

(** The owner recorded in a grid cell; [None] where the grid has no such
    cell. *)
Definition ownerIn (g : list (list Z)) (cell : Cell) : option Z :=
  match index g cell.1 with
  | Some r => index r cell.2
  | None => None
  end.

Definition owner (board : Board.t) (cell : Cell) : option Z :=
  ownerIn (Board.grid board) cell.

Definition ownedBy (board : Board.t) (playerId : Z) (cell : Cell) : Prop :=
  owner board cell = Some playerId.

Definition onBoard (board : Board.t) (cell : Cell) : Prop :=
  0 <= cell.1 < Board.size board ∧ 0 <= cell.2 < Board.size board.

(** The grid is [size] by [size]. *)
Definition squareGrid (board : Board.t) : Prop :=
  Z.of_nat (length (Board.grid board)) = Board.size board ∧
  Forall (fun r : list Z => Z.of_nat (length r) = Board.size board)
         (Board.grid board).



Definition boardCorners (board : Board.t) : list Cell :=
  [ (0, 0); (0, Board.size board - 1); (Board.size board - 1, 0);
    (Board.size board - 1, Board.size board - 1) ].

(** Number of pieces of a player already marked used. *)
Definition placedCount (player : Player.t) : nat :=
  length (List.filter Piece.used (Player.pieces player)).

(** Number of cells of a piece's base shape. *)
Definition cellCount (q : Piece.t) : Z := Z.of_nat (length (Piece.shape q)).

(** Sum of the cell counts of the used pieces of a piece set, and of a
    player. *)
Definition usedSum (ps : list Piece.t) : Z :=
  foldr Z.add 0 (cellCount <$> List.filter Piece.used ps).

Definition usedCells (player : Player.t) : Z := usedSum (Player.pieces player).

(** The piece handed to [placePiece] is one of the player's own pieces on
    this board, possibly turned or flipped by the caller. *)
Definition ownPiece (board : Board.t) (playerId : Z) (piece : Piece.t) : Prop :=
  ∃ player q,
    findPlayer board playerId = Some player ∧
    q ∈ Player.pieces player ∧
    Piece.id q = Piece.id piece ∧
    Piece.shape q = Piece.shape piece ∧
    Piece.used q = Piece.used piece.

(** Boards obtained from [createBoard] by [startGame] and successful
    [placePiece] calls. *)
Inductive reachable : Board.t → Prop :=
| reach_create : reachable createBoard
| reach_start b n b' :
    reachable b → startGame (Some b) n = Ret b' → reachable b'
| reach_place b now piece row col playerId b' :
    reachable b →
    placePiece now b piece row col playerId = Ret b' →
    reachable b'.

(** The same, where every placed piece is taken from the placing player's
    piece set on the current board. *)
Inductive reachableOwn : Board.t → Prop :=
| reachOwn_create : reachableOwn createBoard
| reachOwn_start b n b' :
    reachableOwn b → startGame (Some b) n = Ret b' → reachableOwn b'
| reachOwn_place b now piece row col playerId b' :
    reachableOwn b →
    ownPiece b playerId piece →
    placePiece now b piece row col playerId = Ret b' →
    reachableOwn b'.

Definition withStatus (s : GAME_STATUS) (board : Board.t) : Board.t :=
  Board.mk (Board.grid board) (Board.size board) (Board.players board)
           (Board.currentPlayer board) s (Board.moveHistory board)
           (Board.lastMove board).

Definition withCurrentPlayer (cp : option Z) (board : Board.t) : Board.t :=
  Board.mk (Board.grid board) (Board.size board) (Board.players board)
           cp (Board.status board) (Board.moveHistory board)
           (Board.lastMove board).

#[global] Instance ownedBy_dec (board : Board.t) (playerId : Z) (cell : Cell) :
  Decision (ownedBy board playerId cell).
Proof. unfold ownedBy. apply _. Defined.

(** Some neighbour of [cell], at one of the offsets [deltas], is owned by
    the player. *)
Definition neighbourOwned (board : Board.t) (playerId : Z)
  (deltas : list Cell) (cell : Cell) : bool :=
  existsb (fun d : Cell =>
             bool_decide (ownedBy board playerId (cell.1 + d.1, cell.2 + d.2)))
          deltas.

(** The only exception a computation can end in is a [TypeError]. *)
Definition onlyTypeError {A : Type} (m : outcome A) : Prop :=
  ∀ e, m = Throw e → e = TypeError.

(** The boards agree on everything placement reads: grid, size, players. *)
Definition sameArena (b1 b2 : Board.t) : Prop :=
  Board.grid b1 = Board.grid b2 ∧
  Board.size b1 = Board.size b2 ∧
  Board.players b1 = Board.players b2.

(** What the score bookkeeping relies on: player ids and, within a piece
    set, piece ids are pairwise different, and each score is the sum over
    the used pieces. *)
Definition scoresConsistent (board : Board.t) : Prop :=
  NoDup (Player.id <$> Board.players board) ∧
  Forall (fun player : Player.t =>
            NoDup (Piece.id <$> Player.pieces player) ∧
            Player.score player = usedCells player)
         (Board.players board).

(** Total number of cells of the moves a player has made. *)
Definition placedCells (history : list Move.t) (playerId : Z) : Z :=
  foldr Z.add 0
    ((fun m : Move.t => Z.of_nat (length (Move.shape m))) <$>
       List.filter (fun m => Move.playerId m =? playerId) history).

(** The largest element, by way of [math_min]. *)
Definition math_max (xs : list Z) : Z := - math_min (Z.opp <$> xs).

(** ** Example boards *)

Definition pieceI1 : Piece.t := Piece.mk "I1" [(0, 0)] false 0 false.
Definition pieceI2 : Piece.t := Piece.mk "I2" [(0, 0); (1, 0)] false 0 false.

(** [L4] turned once and flipped; it resolves to
    [(1,2); (1,1); (1,0); (0,2)]. *)
Definition pieceL4turned : Piece.t :=
  Piece.mk "L4" [(0, 0); (1, 0); (2, 0); (0, 1)] false 1 true.

Definition orCreate (o : outcome Board.t) : Board.t :=
  match o with
  | Ret b => b
  | Throw _ => createBoard
  end.

(** A fresh four-player game. *)
Definition startedBoard : Board.t :=
  orCreate (startGame (Some createBoard) 4).

(** Player 1 has put [I1] on the corner (0,0). *)
Definition afterFirstMove : Board.t :=
  orCreate (placePiece 0 startedBoard pieceI1 0 0 1).

(** ... and then the very same piece value again, diagonally at (1,1). *)
Definition afterReuse : Board.t :=
  orCreate (placePiece 1 afterFirstMove pieceI1 1 1 1).

(** The fresh game, marked finished. *)
Definition finishedBoard : Board.t := withStatus FINISHED startedBoard.

(** The fresh game laid out in a store: row [i] of the grid is the array
    at address [i]. *)
Definition startedHeap : Heap.heap := Board.grid startedBoard.

Definition startedHeapBoard : Heap.board :=
  Board.mk (seq 0 (length (Board.grid startedBoard)))
           (Board.size startedBoard) (Board.players startedBoard)
           (Board.currentPlayer startedBoard) (Board.status startedBoard)
           (Board.moveHistory startedBoard) (Board.lastMove startedBoard).

(** Player 1 puts [I1] on the corner (0,0), in the store. *)
Definition startedHeapRun : Heap.heap * outcome Heap.board :=
  Heap.placePiece 0 startedHeap startedHeapBoard pieceI1 0 0 1.

(** ** The page controller (web-app/main.js)

    The three variables of the page script ([gameBoard], [selectedPiece],
    [currentPlayer]) and the handlers that assign to them.  The calls that
    only draw (createPiecesUI, updateBoardDisplay, updateDisplay,
    showStatusMessage and the dialogs) are left out, and are taken to
    return normally; which message or dialog a handler ends with is kept
    as its [feedback]. *)
Module Main.

Record state : Type := mk {
  gameBoard : Board.t;
  selectedPiece : option Piece.t;
  currentPlayer : option Z
}.

Inductive feedback : Type :=
| PleaseSelect
| NextTurn
| GameOver
| InvalidPlacement
| Caught.

(** [initializeGame]: the board of a four-player game; [selectedPiece] and
    [currentPlayer] still have the values of their declarations. *)
Definition initializeGame : outcome state :=
  b ← startGame (Some createBoard) 4;
  Ret (mk b None (Some 1)).

(** [rotatePiece(piece)] assigns to the piece object; the result is the
    object after the call.  [%] is the remainder of JS. *)
Definition rotatePiece (piece : Piece.t) : Piece.t :=
  if Piece.used piece then piece
  else Piece.mk (Piece.id piece) (Piece.shape piece) (Piece.used piece)
                (Z.rem (Piece.rotation piece + 1) 4) (Piece.flipped piece).

Definition flipPiece (piece : Piece.t) : Piece.t :=
  if Piece.used piece then piece
  else Piece.mk (Piece.id piece) (Piece.shape piece) (Piece.used piece)
                (Piece.rotation piece) (negb (Piece.flipped piece)).

Definition selectPiece (piece : Piece.t) (st : state) : state :=
  if Piece.used piece then st
  else mk (gameBoard st) (Some piece) (currentPlayer st).

(** [handleBoardClick(row, col)].  With [currentPlayer] undefined no
    player id is [===] to it, so the engine's [canPlacePiece] returns
    [false].  An exception anywhere in the [try] block ends in the
    [catch]; the assignments made before it stay. *)
Definition handleBoardClick (now : Z) (row col : Z) (st : state)
  : state * feedback :=
  match selectedPiece st with
  | None => (st, PleaseSelect)
  | Some piece =>
      match currentPlayer st with
      | None => (st, InvalidPlacement)
      | Some cur =>
          match canPlacePiece (gameBoard st) piece row col cur with
          | Throw _ => (st, Caught)
          | Ret false => (st, InvalidPlacement)
          | Ret true =>
              match placePiece now (gameBoard st) piece row col cur with
              | Throw _ => (st, Caught)
              | Ret b' =>
                  let st' := mk b' None (getNextPlayer b' cur) in
                  match isGameOver b' with
                  | Throw _ => (st', Caught)
                  | Ret true => (st', GameOver)
                  | Ret false => (st', NextTurn)
                  end
              end
          end
      end
  end.

(** What the user does on the page: pick a piece, or click a cell (at a
    time [now]). *)
Inductive event : Type :=
| Select (piece : Piece.t)
| Click (now row col : Z).

Definition handle (ev : event) (st : state) : state :=
  match ev with
  | Select piece => selectPiece piece st
  | Click now row col => (handleBoardClick now row col st).1
  end.

(** The state after a sequence of events, first event first. *)
Definition run (evs : list event) (st : state) : state :=
  foldl (fun s ev => handle ev s) st evs.

End Main.

(** A piece turned to a given rotation count. *)
Definition withRotation (rotation : Z) (piece : Piece.t) : Piece.t :=
  Piece.mk (Piece.id piece) (Piece.shape piece) (Piece.used piece)
           rotation (Piece.flipped piece).

(** A one-cell board whose only cell is taken, with one player holding an
    unused [I1]: nobody can move. *)
Definition blockedBoard : Board.t :=
  Board.mk [[9]] 1 [Player.mk 1 0 [pieceI1] "red"] (Some 1) IN_PROGRESS
           [] None.

(** The pieces the page lets the user pick.  [createPiecesUI] draws the
    piece set of the page's current player on the page's board, and
    [createPieceElement] attaches the [selectPiece] listener only to the
    pieces that are not used; the rotate and flip handlers may have
    changed the rotation count and flip flag of the piece object since the
    board was made. *)
Definition pageOffers (st : Main.state) (piece : Piece.t) : Prop :=
  Piece.used piece = false ∧
  ∃ cur, Main.currentPlayer st = Some cur ∧
         ownPiece (Main.gameBoard st) cur piece.

(** Every [Select] of a sequence of events picks a piece the page offers
    at that moment. *)
Fixpoint offeredRun (evs : list Main.event) (st : Main.state) : Prop :=
  match evs with
  | [] => True
  | ev :: rest =>
      match ev with
      | Main.Select piece => pageOffers st piece
      | Main.Click _ _ _ => True
      end ∧ offeredRun rest (Main.handle ev st)
  end.

(** No two moves of the history are by the same player with the same
    piece id, and the piece of every move is marked used in the piece
    set of the player who made it. *)
Definition piecesPlacedOnce (board : Board.t) : Prop :=
  NoDup ((fun m : Move.t => (Move.playerId m, Move.pieceId m)) <$>
           Board.moveHistory board) ∧
  ∀ m, m ∈ Board.moveHistory board →
       ∃ pl q, pl ∈ Board.players board ∧ Player.id pl = Move.playerId m ∧
               q ∈ Player.pieces pl ∧ Piece.id q = Move.pieceId m ∧
               Piece.used q = true.

(** * Properties *)
(** ** Arrays *)

Lemma index_Some {A : Type} (arr : list A) (i : Z) (x : A) :
  index arr i = Some x ↔ 0 <= i ∧ arr !! Z.to_nat i = Some x.
Proof.
  unfold index. case_decide; [tauto|]. split; [done|]. intros [? _]; lia.
Qed.

Lemma index_is_Some {A : Type} (arr : list A) (i : Z) :
  is_Some (index arr i) ↔ 0 <= i < Z.of_nat (length arr).
Proof.
  unfold index. case_decide.
  - rewrite lookup_lt_is_Some. lia.
  - split; [intros [? ?]; done | lia].
Qed.

Lemma index_None {A : Type} (arr : list A) (i : Z) :
  index arr i = None ↔ ¬ (0 <= i < Z.of_nat (length arr)).
Proof. rewrite <- index_is_Some, eq_None_not_Some. done. Qed.

Lemma index_store_eq {A : Type} (arr : list A) (i : Z) (v : A) :
  0 <= i < Z.of_nat (length arr) → index (store arr i v) i = Some v.
Proof.
  intros Hi. unfold store, index. rewrite !decide_True by lia.
  apply list_lookup_insert_eq. lia.
Qed.

Lemma index_store_ne {A : Type} (arr : list A) (i j : Z) (v : A) :
  i ≠ j → index (store arr i v) j = index arr j.
Proof.
  intros Hne. unfold store, index. repeat case_decide; try done.
  apply list_lookup_insert_ne. lia.
Qed.

Lemma length_store {A : Type} (arr : list A) (i : Z) (v : A) :
  length (store arr i v) = length arr.
Proof. unfold store. case_decide; [apply length_insert | done]. Qed.

(** ** Reading the grid *)

Lemma isValidPosition_onBoard (b : Board.t) (row col : Z) :
  isValidPosition row col b = true ↔ onBoard b (row, col).
Proof. unfold isValidPosition, onBoard; simpl. lia. Qed.

Lemma isValidPosition_false (b : Board.t) (row col : Z) :
  isValidPosition row col b = false ↔ ¬ onBoard b (row, col).
Proof. rewrite <- isValidPosition_onBoard. destruct (isValidPosition _ _ _); naive_solver. Qed.

Lemma readCell_Ret (b : Board.t) (row col : Z) (v : option Z) :
  readCell b row col = Ret v → v = owner b (row, col).
Proof.
  unfold readCell, owner, ownerIn; simpl.
  destruct (index (Board.grid b) row); [|done]. by intros [= <-].
Qed.

Lemma owner_onBoard (b : Board.t) (cell : Cell) :
  squareGrid b → is_Some (owner b cell) ↔ onBoard b cell.
Proof.
  intros [Hlen Hrows]. unfold owner, ownerIn, onBoard.
  destruct (index (Board.grid b) cell.1) as [r|] eqn:Hr.
  - assert (Hin : r ∈ Board.grid b).
    { apply index_Some in Hr as [_ Hr]. by eapply list_elem_of_lookup_2. }
    rewrite Forall_forall in Hrows. specialize (Hrows _ Hin).
    assert (is_Some (index (Board.grid b) cell.1)) as Hs by (by rewrite Hr).
    apply index_is_Some in Hs. rewrite index_is_Some. lia.
  - apply index_None in Hr. split; [by intros [? ?]|]. lia.
Qed.

Lemma readCell_onBoard (b : Board.t) (row col : Z) :
  squareGrid b → onBoard b (row, col) →
  readCell b row col = Ret (owner b (row, col)).
Proof.
  intros Hsq Hon. apply (owner_onBoard b (row, col) Hsq) in Hon as [v Hv].
  unfold readCell. unfold owner, ownerIn in *; simpl in *.
  destruct (index (Board.grid b) row); [done|discriminate].
Qed.

Lemma strictEq_true (v : option Z) (n : Z) : strictEq v n = true ↔ v = Some n.
Proof.
  destruct v as [x|]; simpl; [|done].
  rewrite Z.eqb_eq. split; [by intros ->|by intros [= ->]].
Qed.

(** ** The bounds-and-emptiness loop *)

Lemma cellsFree_true (b : Board.t) (cells : list Cell) :
  cellsFree b cells = Ret true ↔
  Forall (fun cell => onBoard b cell ∧ owner b cell = Some 0) cells.
Proof.
  induction cells as [|[r c] rest IH]; simpl.
  - split; [constructor|done].
  - rewrite Forall_cons, <- IH. unfold isCellEmpty.
    destruct (isValidPosition r c b) eqn:Hv; simpl.
    + apply isValidPosition_onBoard in Hv.
      destruct (readCell b r c) as [v|e] eqn:Hread; simpl.
      * apply readCell_Ret in Hread as ->.
        destruct (strictEq (owner b (r, c)) 0) eqn:Heq; simpl.
        -- apply strictEq_true in Heq. tauto.
        -- split; [done|]. intros [[_ Ho] _].
           apply strictEq_true in Ho. congruence.
      * split; [done|]. intros [[_ Ho] _].
        unfold readCell, owner, ownerIn in *; simpl in *.
        destruct (index (Board.grid b) r); done.
    + apply isValidPosition_false in Hv. split; [done|tauto].
Qed.

Lemma canPlacePiece_true (b : Board.t) (piece : Piece.t) (row col pid : Z) :
  canPlacePiece b piece row col pid = Ret true →
  Piece.used piece = false ∧
  is_Some (findPlayer b pid) ∧
  cellsFree b (absCells (getTransformedShape piece) row col) = Ret true ∧
  isValidPlacement b (getTransformedShape piece) row col pid = Ret true.
Proof.
  unfold canPlacePiece.
  destruct (Piece.used piece); [done|].
  destruct (findPlayer b pid); [|done].
  destruct (cellsFree _ _) as [[|]|]; simpl; try done.
Qed.

(** ** First placement: the board-corner rule *)

Lemma existsb_elem_of {A : Type} (f : A → bool) (l : list A) :
  existsb f l = true ↔ ∃ x, x ∈ l ∧ f x = true.
Proof.
  rewrite existsb_exists. setoid_rewrite list_elem_of_In. done.
Qed.

Lemma touchesCorner_true (shape : Shape) (row col : Z) (b : Board.t) :
  touchesCorner shape row col b = true ↔
  ∃ cell, cell ∈ absCells shape row col ∧ cell ∈ boardCorners b.
Proof.
  unfold touchesCorner. rewrite existsb_elem_of.
  apply exist_proper; intros cell. apply and_iff_compat_l.
  fold (boardCorners b). rewrite existsb_elem_of. split.
  - intros (c & Hc & Heq). apply andb_true_iff in Heq as [H1 H2].
    apply Z.eqb_eq in H1, H2. destruct cell, c; simpl in *. by subst.
  - intros Hc. exists cell. split; [done|].
    by rewrite !Z.eqb_refl.
Qed.

Lemma isValidPlacement_first (b : Board.t) (shape : Shape) (row col pid : Z)
  (player : Player.t) :
  findPlayer b pid = Some player →
  placedCount player = 0%nat →
  isValidPlacement b shape row col pid = Ret (touchesCorner shape row col b).
Proof.
  unfold isValidPlacement, placedCount. intros -> ->. done.
Qed.

(** C2.  A player with no used piece and an unused piece placed at
    [(row, col)] so that every cell [(row + dr, col + dc)], for [(dr, dc)]
    an offset of the resolved shape, lies on the board and is empty:
    [canPlacePiece] returns a boolean, and it returns [true] exactly when
    one of these cells [(row + dr, col + dc)] is one of the four board
    corners. *)
Theorem canPlace_first_piece_iff_board_corner (b : Board.t) (piece : Piece.t)
  (row col pid : Z) (player : Player.t) :
  findPlayer b pid = Some player →
  placedCount player = 0%nat →
  Piece.used piece = false →
  Forall (fun d : Cell => onBoard b (row + d.1, col + d.2) ∧
                          owner b (row + d.1, col + d.2) = Some 0)
         (getTransformedShape piece) →
  (∃ v, canPlacePiece b piece row col pid = Ret v) ∧
  (canPlacePiece b piece row col pid = Ret true ↔
   ∃ d : Cell, d ∈ getTransformedShape piece ∧
           (row + d.1, col + d.2) ∈
             [ (0, 0); (0, Board.size b - 1); (Board.size b - 1, 0);
               (Board.size b - 1, Board.size b - 1) ]).
Proof.
  intros Hfind Hcount Hused Hfree.
  assert (Hcells : cellsFree b (absCells (getTransformedShape piece) row col)
                   = Ret true).
  { apply cellsFree_true. unfold absCells. by apply Forall_fmap. }
  assert (Hcan : canPlacePiece b piece row col pid =
                 Ret (touchesCorner (getTransformedShape piece) row col b)).
  { unfold canPlacePiece. rewrite Hused, Hfind, Hcells. simpl.
    by eapply isValidPlacement_first. }
  rewrite Hcan. split; [eauto|].
  transitivity (touchesCorner (getTransformedShape piece) row col b = true);
    [split; [by intros [= ->]|by intros ->]|].
  rewrite touchesCorner_true. unfold absCells, boardCorners. split.
  - intros (cell & (d & -> & Hd)%list_elem_of_fmap & Hc). eauto.
  - intros (d & Hd & Hc). eexists. split; [|exact Hc].
    apply list_elem_of_fmap. eauto.
Qed.

(** ** Later placements: the corner-must / edge-forbidden rule *)

Lemma flag_or (x f y : bool) : (if x then true else f) || y = f || (x || y).
Proof. by destruct x, f, y. Qed.

Section Adjacency.
Context (b : Board.t) (Hsq : squareGrid b) (pid : Z).

(** On a square grid the neighbour loop never throws, and finds exactly
    the neighbours whose cell holds [pid]. *)
Lemma touchesAt_owned (deltas : list Cell) (row col : Z) :
  touchesAt deltas row col b pid =
  Ret (neighbourOwned b pid deltas (row, col)).
Proof.
  unfold neighbourOwned.
  induction deltas as [|[dx dy] rest IH]; simpl in *; [done|].
  destruct (isValidPosition (row + dx) (col + dy) b) eqn:Hv.
  - apply isValidPosition_onBoard in Hv.
    rewrite (readCell_onBoard _ _ _ Hsq Hv). simpl.
    destruct (strictEq _ pid) eqn:Heq.
    + apply strictEq_true in Heq. unfold ownedBy.
      by rewrite bool_decide_eq_true_2.
    + rewrite bool_decide_eq_false_2; [done|].
      unfold ownedBy. intros Ho. apply strictEq_true in Ho. congruence.
  - apply isValidPosition_false in Hv.
    rewrite bool_decide_eq_false_2; [done|].
    unfold ownedBy. intros Ho. apply Hv, (owner_onBoard _ _ Hsq). by rewrite Ho.
Qed.

#[local] Abbreviation cornerTouched := (neighbourOwned b pid cornerDeltas).
#[local] Abbreviation edgeTouched := (neighbourOwned b pid edgeDeltas).

Lemma scanTouches_owned (cells : list Cell) (flags : bool * bool) :
  scanTouches b cells pid flags =
  Ret (flags.1 || existsb cornerTouched cells,
       flags.2 || existsb edgeTouched cells).
Proof.
  revert flags. induction cells as [|[r c] rest IH]; intros [f1 f2].
  - simpl. by rewrite !orb_false_r.
  - cbn [scanTouches]. unfold touchesPlayerCorner, touchesPlayerEdge.
    rewrite !touchesAt_owned. cbn [mbind outcome_bind]. rewrite IH.
    cbn [fst snd existsb]. f_equal. f_equal; apply flag_or.
Qed.



Lemma isValidPlacement_later (shape : Shape) (row col : Z) (player : Player.t) :
  findPlayer b pid = Some player →
  placedCount player ≠ 0%nat →
  isValidPlacement b shape row col pid =
  Ret (existsb cornerTouched (absCells shape row col) &&
       negb (existsb edgeTouched (absCells shape row col))).
Proof.
  unfold isValidPlacement, placedCount. intros -> Hn.
  apply Nat.eqb_neq in Hn. rewrite Hn.
  by rewrite scanTouches_owned.
Qed.

End Adjacency.





(** ** Stamping the grid *)

Lemma writeCell_owner (g : list (list Z)) (r c v : Z) :
  is_Some (ownerIn g (r, c)) →
  ∃ g', writeCell g r c v = Ret g' ∧
        ∀ cell, ownerIn g' cell =
                if decide (cell = (r, c)) then Some v else ownerIn g cell.
Proof.
  unfold ownerIn, writeCell; simpl. intros Hs.
  destruct (index g r) as [rowArr|] eqn:Hrow; [|by destruct Hs].
  eexists; split; [done|]. intros [r' c']. cbn [fst snd].
  assert (0 <= r < Z.of_nat (length g)) as Hr
    by (apply index_is_Some; by rewrite Hrow).
  apply index_is_Some in Hs.
  case_decide as Heq.
  - injection Heq as -> ->. rewrite index_store_eq by done.
    by rewrite index_store_eq by done.
  - destruct (decide (r' = r)) as [->|Hr'].
    + rewrite index_store_eq by done.
      rewrite index_store_ne by congruence. by rewrite Hrow.
    + by rewrite index_store_ne by done.
Qed.

Lemma stamp_owner (cells : list Cell) (v : Z) (g : list (list Z)) :
  Forall (fun cell => is_Some (ownerIn g cell)) cells →
  ∃ g', stamp g cells v = Ret g' ∧
        ∀ cell, ownerIn g' cell =
                if decide (cell ∈ cells) then Some v else ownerIn g cell.
Proof.
  revert g. induction cells as [|[r c] rest IH]; intros g Hall; cbn [stamp].
  - exists g. split; [done|]. intros cell.
    case_decide as Hin; [|done]. by apply not_elem_of_nil in Hin.
  - apply Forall_cons in Hall as [Hhd Htl].
    destruct (writeCell_owner g r c v Hhd) as (g1 & -> & Hg1).
    cbn [mbind outcome_bind].
    destruct (IH g1) as (g' & -> & Hg').
    { eapply Forall_impl; [exact Htl|]. intros cell Hs. cbn beta in Hs.
      rewrite Hg1. by case_decide. }
    exists g'. split; [done|]. intros cell. rewrite Hg', Hg1.
    destruct (decide _) as [Hrest|Hrest];
      [|destruct (decide _) as [Hhere|Hhere]];
      destruct (decide _) as [Hin|Hnin]; try done; exfalso.
    + apply Hnin. by constructor.
    + apply Hnin. subst. by constructor.
    + by apply elem_of_cons in Hin as [?|?].
Qed.

(** Every cell [placePiece] stores into was read as [0] by the preceding
    [canPlacePiece]: it exists in the grid. *)
Lemma stamp_checked (b : Board.t) (piece : Piece.t) (row col pid : Z) :
  canPlacePiece b piece row col pid = Ret true →
  Forall (fun cell => onBoard b cell ∧ owner b cell = Some 0)
         (absCells (getTransformedShape piece) row col).
Proof.
  intros Hcan. apply canPlacePiece_true in Hcan as (_ & _ & Hfree & _).
  by apply cellsFree_true.
Qed.

(** ** Turn order *)

Lemma findPlayer_Some (b : Board.t) (pid : Z) (player : Player.t) :
  findPlayer b pid = Some player →
  player ∈ Board.players b ∧ Player.id player = pid.
Proof.
  unfold findPlayer. intros Hf. apply find_some in Hf as [Hin Heq].
  split; [by apply list_elem_of_In|by apply Z.eqb_eq].
Qed.

Lemma indexOf_first (xs : list Z) (x : Z) :
  x ∈ xs →
  ∃ i : nat, indexOf xs x = Z.of_nat i ∧ xs !! i = Some x ∧
             ∀ j : nat, (j < i)%nat → xs !! j ≠ Some x.
Proof.
  intros Hin. unfold indexOf.
  destruct (list_find_elem_of (fun y => y = x) xs x Hin eq_refl) as [[i y] Hf].
  rewrite Hf. apply list_find_Some in Hf as (Hi & -> & Hfirst).
  exists i. split; [done|]. split; [done|].
  intros j Hj Hjx. by eapply Hfirst.
Qed.

Lemma getNextPlayer_successor (b : Board.t) (pid : Z) :
  is_Some (findPlayer b pid) →
  ∃ i : nat,
    (Player.id <$> Board.players b) !! i = Some pid ∧
    (∀ j : nat, (j < i)%nat → (Player.id <$> Board.players b) !! j ≠ Some pid) ∧
    getNextPlayer b pid =
    (Player.id <$> Board.players b) !!
      ((i + 1) `mod` length (Player.id <$> Board.players b))%nat.
Proof.
  intros [player Hf]. apply findPlayer_Some in Hf as [Hin Hid].
  assert (Hmem : pid ∈ Player.id <$> Board.players b).
  { rewrite <- Hid. by apply list_elem_of_fmap_2. }
  destruct (indexOf_first _ _ Hmem) as (i & Hidx & Hi & Hfirst).
  exists i. split; [done|]. split; [done|].
  unfold getNextPlayer. rewrite Hidx.
  assert (i < length (Player.id <$> Board.players b))%nat as Hlt
    by (by eapply lookup_lt_Some).
  rewrite decide_False by lia.
  rewrite Z.rem_mod_nonneg by lia.
  replace (Z.of_nat i + 1) with (Z.of_nat (i + 1)) by lia.
  rewrite <- Nat2Z.inj_mod. unfold index.
  rewrite decide_True by lia. by rewrite Nat2Z.id.
Qed.

(** ** The placement transition *)

Lemma updatePlayer_other (piece : Piece.t) (shape : Shape) (pid : Z)
  (player : Player.t) :
  Player.id player ≠ pid → updatePlayer piece shape pid player = player.
Proof.
  intros Hne. unfold updatePlayer.
  by destruct (Z.eqb_spec (Player.id player) pid).
Qed.

Lemma updatePlayer_same (piece : Piece.t) (shape : Shape) (pid : Z)
  (player : Player.t) :
  Player.id player = pid →
  updatePlayer piece shape pid player =
  Player.mk (Player.id player)
            (Player.score player + Z.of_nat (length shape))
            (markUsed piece <$> Player.pieces player)
            (Player.color player).
Proof. intros Heq. unfold updatePlayer. by rewrite Heq, Z.eqb_refl. Qed.

Lemma updatePlayer_id (piece : Piece.t) (shape : Shape) (pid : Z)
  (player : Player.t) :
  Player.id (updatePlayer piece shape pid player) = Player.id player.
Proof. unfold updatePlayer. by destruct (_ =? _). Qed.

Lemma markUsed_fields (piece q : Piece.t) :
  Piece.id (markUsed piece q) = Piece.id q ∧
  Piece.shape (markUsed piece q) = Piece.shape q ∧
  Piece.rotation (markUsed piece q) = Piece.rotation q ∧
  Piece.flipped (markUsed piece q) = Piece.flipped q ∧
  Piece.used (markUsed piece q) =
    if decide (Piece.id q = Piece.id piece) then true else Piece.used q.
Proof.
  unfold markUsed.
  destruct (String.eqb_spec (Piece.id q) (Piece.id piece)) as [Heq|Hne]; simpl.
  - by rewrite decide_True.
  - by rewrite decide_False.
Qed.

(** A validated placement always goes through, and this is the board it
    returns. *)
Lemma placePiece_success (now : Z) (b : Board.t) (piece : Piece.t)
  (row col pid : Z) :
  canPlacePiece b piece row col pid = Ret true →
  ∃ g',
    stamp (Board.grid b) (absCells (getTransformedShape piece) row col) pid =
      Ret g' ∧
    (∀ cell, ownerIn g' cell =
             if decide (cell ∈ absCells (getTransformedShape piece) row col)
             then Some pid else owner b cell) ∧
    placePiece now b piece row col pid =
    Ret (Board.mk g'
           (Board.size b)
           (updatePlayer piece (getTransformedShape piece) pid <$>
              Board.players b)
           (getNextPlayer b pid)
           (Board.status b)
           (Board.moveHistory b ++
              [Move.mk pid (Piece.id piece) (row, col)
                       (getTransformedShape piece) now])
           (Some (Move.mk pid (Piece.id piece) (row, col)
                          (getTransformedShape piece) now))).
Proof.
  intros Hcan. pose proof (stamp_checked _ _ _ _ _ Hcan) as Hfree.
  destruct (stamp_owner (absCells (getTransformedShape piece) row col) pid
              (Board.grid b)) as (g' & Hst & Hown).
  { eapply Forall_impl; [exact Hfree|]. intros cell [_ Ho].
    unfold owner in Ho. by rewrite Ho. }
  exists g'. split; [done|]. split; [done|].
  unfold placePiece. rewrite Hcan. cbn [mbind outcome_bind negb].
  by rewrite Hst.
Qed.

(** C4.  When [canPlacePiece] holds, [placePiece] returns a board in which
    every cell [(row + dr, col + dc)], for [(dr, dc)] an offset of the
    resolved shape, now holds [pid], having been empty before, and every
    cell that is not of this form holds what it held before; every player
    entry with id [pid] has its score
    raised by the number of cells of the resolved shape and, in its piece
    set, the pieces carrying the placed piece's id marked used (all other
    pieces and players untouched); the move record is appended to the
    history and is the last move; and [currentPlayer] is the entry after
    [pid] in the list of player ids, wrapping around. *)
Theorem placePiece_builds_next_board (now : Z) (b : Board.t)
  (piece : Piece.t) (row col pid : Z) :
  canPlacePiece b piece row col pid = Ret true →
  ∃ b',
    placePiece now b piece row col pid = Ret b' ∧
    (∀ d : Cell, d ∈ getTransformedShape piece →
                 owner b (row + d.1, col + d.2) = Some 0 ∧
                 owner b' (row + d.1, col + d.2) = Some pid) ∧
    (∀ r c : Z,
       (∀ d : Cell, d ∈ getTransformedShape piece →
                    (r, c) ≠ (row + d.1, col + d.2)) →
       owner b' (r, c) = owner b (r, c)) ∧
    length (Board.players b') = length (Board.players b) ∧
    (∀ (i : nat) (pl : Player.t),
       Board.players b !! i = Some pl →
       ∃ pl',
         Board.players b' !! i = Some pl' ∧
         Player.id pl' = Player.id pl ∧
         Player.color pl' = Player.color pl ∧
         if decide (Player.id pl = pid) then
           Player.score pl' =
             Player.score pl +
             Z.of_nat (length (getTransformedShape piece)) ∧
           length (Player.pieces pl') = length (Player.pieces pl) ∧
           ∀ (j : nat) (q : Piece.t),
             Player.pieces pl !! j = Some q →
             ∃ q',
               Player.pieces pl' !! j = Some q' ∧
               Piece.id q' = Piece.id q ∧
               Piece.shape q' = Piece.shape q ∧
               Piece.rotation q' = Piece.rotation q ∧
               Piece.flipped q' = Piece.flipped q ∧
               Piece.used q' =
                 if decide (Piece.id q = Piece.id piece) then true
                 else Piece.used q
         else pl' = pl) ∧
    Board.moveHistory b' =
      Board.moveHistory b ++
        [Move.mk pid (Piece.id piece) (row, col)
                 (getTransformedShape piece) now] ∧
    Board.lastMove b' =
      Some (Move.mk pid (Piece.id piece) (row, col)
                    (getTransformedShape piece) now) ∧
    (∃ i : nat,
       (Player.id <$> Board.players b) !! i = Some pid ∧
       (∀ j : nat, (j < i)%nat →
                   (Player.id <$> Board.players b) !! j ≠ Some pid) ∧
       Board.currentPlayer b' =
         (Player.id <$> Board.players b) !!
           ((i + 1) `mod` length (Board.players b))%nat) ∧
    Board.size b' = Board.size b ∧
    Board.status b' = Board.status b.
Proof.
  intros Hcan.
  destruct (placePiece_success now _ _ _ _ _ Hcan) as (g' & _ & Hown & Hplace).
  pose proof (stamp_checked _ _ _ _ _ Hcan) as Hfree.
  unfold absCells in Hown, Hfree. rewrite Forall_fmap, Forall_forall in Hfree.
  eexists. split; [exact Hplace|]. cbn [Board.players Board.moveHistory
    Board.lastMove Board.currentPlayer Board.size Board.status].
  split.
  { intros d Hd. split; [apply (Hfree d Hd)|].
    unfold owner; cbn [Board.grid]. rewrite Hown, decide_True; [done|].
    apply list_elem_of_fmap. eauto. }
  split.
  { intros r c Hother. unfold owner at 1; cbn [Board.grid].
    rewrite Hown, decide_False; [done|].
    intros (d & Heq & Hd)%list_elem_of_fmap. by apply (Hother d Hd). }
  split; [by rewrite length_fmap|].
  split; [|split; [done|split; [done|split; [|done]]]].
  - intros i pl Hi. eexists. split.
    { rewrite list_lookup_fmap, Hi. done. }
    split; [apply updatePlayer_id|].
    destruct (decide (Player.id pl = pid)) as [Heq|Hne].
    + rewrite (updatePlayer_same _ _ _ _ Heq). cbn.
      split; [done|]. split; [done|]. split; [by rewrite length_fmap|].
      intros j q Hj. exists (markUsed piece q). split.
      { by rewrite list_lookup_fmap, Hj. }
      apply markUsed_fields.
    + rewrite (updatePlayer_other _ _ _ _ Hne). done.
  - apply canPlacePiece_true in Hcan as (_ & Hfind & _).
    destruct (getNextPlayer_successor b pid Hfind) as (i & H1 & H2 & H3).
    exists i. rewrite length_fmap in H3. done.
Qed.

(** ** Exceptions of the validation functions *)

Lemma onlyTypeError_Ret {A : Type} (a : A) : onlyTypeError (Ret a).
Proof. by intros e. Qed.

Lemma onlyTypeError_bind {A B : Type} (m : outcome A) (k : A → outcome B) :
  onlyTypeError m → (∀ a, onlyTypeError (k a)) → onlyTypeError (m ≫= k).
Proof.
  intros Hm Hk e. destruct m as [a|e']; simpl.
  - apply Hk.
  - intros [= <-]. by apply Hm.
Qed.

Lemma readCell_onlyTypeError (b : Board.t) (row col : Z) :
  onlyTypeError (readCell b row col).
Proof.
  unfold readCell. destruct (index _ _); [apply onlyTypeError_Ret|].
  by intros e [= <-].
Qed.

Lemma isCellEmpty_onlyTypeError (b : Board.t) (row col : Z) :
  onlyTypeError (isCellEmpty row col b).
Proof.
  unfold isCellEmpty. destruct (negb _); [apply onlyTypeError_Ret|].
  apply onlyTypeError_bind; [apply readCell_onlyTypeError|].
  intros v. apply onlyTypeError_Ret.
Qed.

Lemma cellsFree_onlyTypeError (b : Board.t) (cells : list Cell) :
  onlyTypeError (cellsFree b cells).
Proof.
  induction cells as [|[r c] rest IH]; cbn [cellsFree];
    [apply onlyTypeError_Ret|].
  destruct (negb _); [apply onlyTypeError_Ret|].
  apply onlyTypeError_bind; [apply isCellEmpty_onlyTypeError|].
  intros e. destruct (negb e); [apply onlyTypeError_Ret|done].
Qed.

Lemma touchesAt_onlyTypeError (deltas : list Cell) (row col : Z)
  (b : Board.t) (pid : Z) :
  onlyTypeError (touchesAt deltas row col b pid).
Proof.
  induction deltas as [|[dx dy] rest IH]; cbn [touchesAt];
    [apply onlyTypeError_Ret|].
  cbv zeta. destruct (isValidPosition _ _ _); [|done].
  apply onlyTypeError_bind; [apply readCell_onlyTypeError|].
  intros v. destruct (strictEq v pid); [apply onlyTypeError_Ret|done].
Qed.

Lemma scanTouches_onlyTypeError (b : Board.t) (cells : list Cell) (pid : Z)
  (flags : bool * bool) :
  onlyTypeError (scanTouches b cells pid flags).
Proof.
  revert flags. induction cells as [|[r c] rest IH]; intros flags;
    cbn [scanTouches]; [apply onlyTypeError_Ret|].
  apply onlyTypeError_bind; [apply touchesAt_onlyTypeError|]. intros tc.
  apply onlyTypeError_bind; [apply touchesAt_onlyTypeError|]. intros te.
  apply IH.
Qed.

Lemma isValidPlacement_onlyTypeError (b : Board.t) (shape : Shape)
  (row col pid : Z) :
  onlyTypeError (isValidPlacement b shape row col pid).
Proof.
  unfold isValidPlacement. destruct (findPlayer b pid); [|by intros e [= <-]].
  destruct (_ =? _)%nat; [apply onlyTypeError_Ret|].
  apply onlyTypeError_bind; [apply scanTouches_onlyTypeError|].
  intros flags. apply onlyTypeError_Ret.
Qed.

Lemma canPlacePiece_onlyTypeError (b : Board.t) (piece : Piece.t)
  (row col pid : Z) :
  onlyTypeError (canPlacePiece b piece row col pid).
Proof.
  unfold canPlacePiece. destruct (Piece.used piece); [apply onlyTypeError_Ret|].
  cbv zeta. destruct (findPlayer b pid); [|apply onlyTypeError_Ret].
  apply onlyTypeError_bind; [apply cellsFree_onlyTypeError|].
  intros [|]; [apply isValidPlacement_onlyTypeError|apply onlyTypeError_Ret].
Qed.

(** [placePiece] raises the illegal-move error exactly on a [false]
    verdict; on a [true] verdict it returns, and an exception of the
    validation itself is passed on. *)
Lemma placePiece_cases (now : Z) (b : Board.t) (piece : Piece.t)
  (row col pid : Z) :
  (canPlacePiece b piece row col pid = Ret true ∧
   ∃ b', placePiece now b piece row col pid = Ret b') ∨
  (canPlacePiece b piece row col pid = Ret false ∧
   placePiece now b piece row col pid = Throw IllegalMove) ∨
  (canPlacePiece b piece row col pid = Throw TypeError ∧
   placePiece now b piece row col pid = Throw TypeError).
Proof.
  destruct (canPlacePiece b piece row col pid) as [[|]|e] eqn:Hcan.
  - left. split; [done|].
    destruct (placePiece_success now _ _ _ _ _ Hcan) as (g' & _ & _ & Hp).
    eauto.
  - right; left. split; [done|]. unfold placePiece. by rewrite Hcan.
  - right; right.
    pose proof (canPlacePiece_onlyTypeError _ _ _ _ _ _ Hcan) as ->.
    split; [done|]. unfold placePiece. by rewrite Hcan.
Qed.

Lemma placePiece_IllegalMove_iff (now : Z) (b : Board.t) (piece : Piece.t)
  (row col pid : Z) :
  placePiece now b piece row col pid = Throw IllegalMove ↔
  canPlacePiece b piece row col pid = Ret false.
Proof.
  destruct (placePiece_cases now b piece row col pid)
    as [[Hc [b' Hp]]|[[Hc Hp]|[Hc Hp]]]; rewrite Hc, Hp; by split.
Qed.

Lemma placePiece_Ret_iff (now : Z) (b : Board.t) (piece : Piece.t)
  (row col pid : Z) :
  (∃ b', placePiece now b piece row col pid = Ret b') ↔
  canPlacePiece b piece row col pid = Ret true.
Proof.
  destruct (placePiece_cases now b piece row col pid)
    as [[Hc [b' Hp]]|[[Hc Hp]|[Hc Hp]]]; rewrite Hc, Hp;
    (split; [by intros [? ?]|try done]); eauto.
Qed.

(** ** The store: what [placePiece] writes and what it leaves alone *)

Lemma deref_insert (h : Heap.heap) (rows : list Heap.loc) (i : nat)
  (l : Heap.loc) (x : list Z) :
  NoDup rows → rows !! i = Some l → (l < length h)%nat →
  Heap.deref (<[l := x]> h) rows = <[i := x]> (Heap.deref h rows).
Proof.
  intros Hnd Hi Hl. unfold Heap.deref. apply list_eq. intros j.
  rewrite list_lookup_fmap.
  destruct (decide (j = i)) as [->|Hne].
  - rewrite Hi. rewrite list_lookup_insert_eq.
    + cbn [fmap option_fmap option_map]. f_equal.
      by apply list_lookup_total_insert_eq.
    + 
    rewrite length_fmap. by eapply lookup_lt_Some.
  - rewrite list_lookup_insert_ne by done. rewrite list_lookup_fmap.
    destruct (rows !! j) as [l'|] eqn:Hj; [|done].
    cbn [fmap option_fmap option_map]. f_equal.
    apply list_lookup_total_insert_ne.
    intros <-. apply Hne. by eapply NoDup_lookup.
Qed.

Lemma deref_copyGrid (h : Heap.heap) (rows : list Heap.loc) :
  Heap.deref (Heap.copyGrid h rows).1 (Heap.copyGrid h rows).2 =
  Heap.deref h rows.
Proof.
  unfold Heap.copyGrid; cbn [fst snd]. apply list_eq. intros j.
  unfold Heap.deref at 1. rewrite list_lookup_fmap.
  destruct (decide (j < length rows)%nat) as [Hlt|Hge].
  - rewrite lookup_seq_lt by done. cbn [fmap option_fmap option_map].
    rewrite lookup_total_app_r by lia.
    replace (length h + j - length h)%nat with j by lia.
    destruct (Heap.deref h rows !! j) as [x|] eqn:Hx.
    + by rewrite (list_lookup_total_correct _ _ _ Hx).
    + apply lookup_ge_None in Hx. unfold Heap.deref in Hx.
      rewrite length_fmap in Hx. lia.
  - rewrite lookup_seq_ge by lia. cbn [fmap option_fmap option_map]. symmetry.
    apply lookup_ge_None. unfold Heap.deref. rewrite length_fmap. lia.
Qed.

Section HeapStamp.
Context (rows : list Heap.loc) (Hnd : NoDup rows).

Lemma heap_writeCell_refines (h : Heap.heap) (r c v : Z) :
  Forall (fun l => (l < length h)%nat) rows →
  length (Heap.writeCell h rows r c v).1 = length h ∧
  (∀ l, l ∉ rows → (Heap.writeCell h rows r c v).1 !! l = h !! l) ∧
  match writeCell (Heap.deref h rows) r c v with
  | Ret g' => (Heap.writeCell h rows r c v).2 = Ret () ∧
              Heap.deref (Heap.writeCell h rows r c v).1 rows = g'
  | Throw e => (Heap.writeCell h rows r c v).2 = Throw e
  end.
Proof.
  intros Hall. unfold Heap.writeCell, writeCell.
  destruct (index rows r) as [l|] eqn:Hr.
  - apply index_Some in Hr as [Hr0 Hr].
    assert (l ∈ rows) as Hin by (by eapply list_elem_of_lookup_2).
    assert (l < length h)%nat as Hl by (by eapply Forall_forall in Hall).
    assert (index (Heap.deref h rows) r = Some (h !!! l)) as ->.
    { apply index_Some. split; [done|]. unfold Heap.deref.
      by rewrite list_lookup_fmap, Hr. }
    cbn [fst snd]. split; [apply length_insert|].
    split.
    { intros l' Hl'. apply list_lookup_insert_ne. by intros ->. }
    split; [done|].
    rewrite (deref_insert _ _ _ _ _ Hnd Hr Hl). unfold store at 2.
    rewrite decide_True; [done|].
    unfold Heap.deref. rewrite length_fmap.
    apply lookup_lt_Some in Hr. lia.
  - cbn [fst snd]. split; [done|]. split; [done|].
    assert (index (Heap.deref h rows) r = None) as ->; [|done].
    apply index_None. apply index_None in Hr. unfold Heap.deref.
    by rewrite length_fmap.
Qed.

Lemma heap_stamp_refines (cells : list Cell) (v : Z) (h : Heap.heap) :
  Forall (fun l => (l < length h)%nat) rows →
  length (Heap.stamp h rows cells v).1 = length h ∧
  (∀ l, l ∉ rows → (Heap.stamp h rows cells v).1 !! l = h !! l) ∧
  match stamp (Heap.deref h rows) cells v with
  | Ret g' => (Heap.stamp h rows cells v).2 = Ret () ∧
              Heap.deref (Heap.stamp h rows cells v).1 rows = g'
  | Throw e => (Heap.stamp h rows cells v).2 = Throw e
  end.
Proof.
  revert h. induction cells as [|[r c] rest IH]; intros h Hall.
  - done.
  - cbn [Heap.stamp stamp].
    destruct (heap_writeCell_refines h r c v Hall) as (Hlen & Hframe & Href).
    destruct (Heap.writeCell h rows r c v) as [h1 o1]. cbn [fst snd] in *.
    destruct (writeCell (Heap.deref h rows) r c v) as [g1|e].
    + destruct Href as [-> <-]. cbn [mbind outcome_bind].
      destruct (IH h1) as (Hlen' & Hframe' & Href').
      { by rewrite Hlen. }
      split; [by rewrite Hlen'|]. split; [|done].
      intros l Hl. rewrite Hframe' by done. by apply Hframe.
    + rewrite Href. cbn [fst snd mbind outcome_bind]. done.
Qed.

End HeapStamp.

Lemma deref_frame (h h' : Heap.heap) (rows : list Heap.loc) :
  Forall (fun l => (l < length h)%nat) rows →
  (∀ l, (l < length h)%nat → h' !! l = h !! l) →
  Heap.deref h' rows = Heap.deref h rows.
Proof.
  intros Hall Hframe. unfold Heap.deref. apply list_fmap_ext.
  intros i l Hi. rewrite !list_lookup_total_alt. rewrite Hframe; [done|].
  eapply Forall_forall in Hall; [exact Hall|]. by eapply list_elem_of_lookup_2.
Qed.

(** The store-passing [placePiece] computes the board of the value-level
    [placePiece]; it only extends the store with fresh arrays, and the
    rows of the board it returns are among those. *)
Lemma heap_placePiece_refines (now : Z) (h : Heap.heap) (b : Heap.board)
  (piece : Piece.t) (row col pid : Z) :
  (length h ≤ length (Heap.placePiece now h b piece row col pid).1)%nat ∧
  (∀ l, (l < length h)%nat →
        (Heap.placePiece now h b piece row col pid).1 !! l = h !! l) ∧
  match placePiece now (Heap.view h b) piece row col pid with
  | Ret vb' =>
      ∃ b', (Heap.placePiece now h b piece row col pid).2 = Ret b' ∧
            Heap.view (Heap.placePiece now h b piece row col pid).1 b' = vb' ∧
            Forall (fun l =>
                      (length h ≤ l <
                       length (Heap.placePiece now h b piece row col pid).1)%nat)
                   (Board.grid b')
  | Throw e => (Heap.placePiece now h b piece row col pid).2 = Throw e
  end.
Proof.
  unfold Heap.placePiece.
  destruct (placePiece_cases now (Heap.view h b) piece row col pid)
    as [[Hc [vb' Hp]]|[[Hc Hp]|[Hc Hp]]]; rewrite Hc, Hp; try done.
  destruct (placePiece_success now _ _ _ _ _ Hc) as (g' & Hst & _ & Hp').
  rewrite Hp in Hp'. injection Hp' as ->.
  unfold Heap.copyGrid.
  set (h1 := h ++ Heap.deref h (Board.grid b)).
  set (ng := seq (length h) (length (Board.grid b))).
  assert (Hnd : NoDup ng) by apply NoDup_seq.
  assert (Hlen1 : length h1 = (length h + length (Board.grid b))%nat).
  { unfold h1, Heap.deref. by rewrite length_app, length_fmap. }
  assert (Hall : Forall (fun l => (l < length h1)%nat) ng).
  { apply Forall_forall. intros l Hl. apply elem_of_seq in Hl. lia. }
  destruct (heap_stamp_refines ng Hnd
              (absCells (getTransformedShape piece) row col) pid h1 Hall)
    as (Hlen2 & Hframe & Href).
  assert (Hd : Heap.deref h1 ng = Heap.deref h (Board.grid b))
    by apply deref_copyGrid.
  rewrite Hd in Href. cbn [Heap.view Board.grid] in Hst. rewrite Hst in Href.
  destruct (Heap.stamp h1 ng _ pid) as [h2 o2]. cbn [fst snd] in *.
  destruct Href as [-> Hg']. cbn [fst snd].
  split; [lia|]. split.
  - intros l Hl. rewrite Hframe.
    + unfold h1. by apply lookup_app_l.
    + intros Hin. apply elem_of_seq in Hin. lia.
  - eexists. split; [done|]. split.
    + unfold Heap.view. cbn [Board.grid Board.size Board.players
        Board.currentPlayer Board.status Board.moveHistory Board.lastMove].
      by rewrite Hg'.
    + cbn. apply Forall_forall. intros l Hl. apply elem_of_seq in Hl. lia.
Qed.

(** C7.  A successful [placePiece] leaves every array of the store that
    existed before the call as it was, so the argument board reads exactly
    as before (grid; its players, pieces, scores, history and current
    player are values the call has no way to change).  The returned board
    is a new one: its rows are arrays allocated by the call, none of them
    shared with the argument, and it is the board the value-level
    [placePiece] computes. *)
Theorem placePiece_does_not_mutate_argument (now : Z) (h h' : Heap.heap)
  (b b' : Heap.board) (piece : Piece.t) (row col pid : Z) :
  Heap.allocated h b →
  Heap.placePiece now h b piece row col pid = (h', Ret b') →
  (∀ l, (l < length h)%nat → h' !! l = h !! l) ∧
  Heap.view h' b = Heap.view h b ∧
  Forall (fun l => (l ∉ Board.grid b) ∧ (length h ≤ l < length h')%nat)
         (Board.grid b') ∧
  placePiece now (Heap.view h b) piece row col pid = Ret (Heap.view h' b').
Proof.
  intros Halloc Hrun.
  destruct (heap_placePiece_refines now h b piece row col pid)
    as (Hlen & Hframe & Href).
  rewrite Hrun in *. cbn [fst snd] in *.
  split; [done|]. split.
  - unfold Heap.view. f_equal. by apply deref_frame.
  - destruct (placePiece now (Heap.view h b) piece row col pid) as [vb'|e];
      [|discriminate].
    destruct Href as (b'' & [= <-] & <- & Hfresh). split; [|done].
    eapply Forall_impl; [exact Hfresh|]. intros l Hl. cbn beta in Hl.
    split; [|done].
    intros Hin. unfold Heap.allocated in Halloc.
    eapply Forall_forall in Halloc; [|exact Hin]. cbn beta in Halloc. lia.
Qed.

(** C3.  [placePiece] raises the illegal-move error exactly when
    [canPlacePiece] returns [false] for the same arguments, and then the
    store is the one it was called with: nothing has been allocated or
    written, and the argument board reads as before. *)
Theorem placePiece_illegal_iff_canPlace_false (now : Z) (h : Heap.heap)
  (b : Heap.board) (piece : Piece.t) (row col pid : Z) :
  ((Heap.placePiece now h b piece row col pid).2 = Throw IllegalMove ↔
   canPlacePiece (Heap.view h b) piece row col pid = Ret false) ∧
  (placePiece now (Heap.view h b) piece row col pid = Throw IllegalMove ↔
   canPlacePiece (Heap.view h b) piece row col pid = Ret false) ∧
  ((Heap.placePiece now h b piece row col pid).2 = Throw IllegalMove →
   (Heap.placePiece now h b piece row col pid).1 = h ∧
   Heap.view (Heap.placePiece now h b piece row col pid).1 b = Heap.view h b).
Proof.
  pose proof (placePiece_IllegalMove_iff now (Heap.view h b) piece row col pid)
    as Hval.
  destruct (heap_placePiece_refines now h b piece row col pid)
    as (_ & _ & Href).
  assert (Hiff : (Heap.placePiece now h b piece row col pid).2 =
                   Throw IllegalMove ↔
                 canPlacePiece (Heap.view h b) piece row col pid = Ret false).
  { rewrite <- Hval.
    destruct (placePiece now (Heap.view h b) piece row col pid) as [vb'|e].
    - destruct Href as (b' & -> & _). by split.
    - rewrite Href. split; by intros [= ->]. }
  split; [done|]. split; [done|].
  intros Hthrow. apply Hiff in Hthrow.
  unfold Heap.placePiece. by rewrite Hthrow.
Qed.

(** ** Placement reads only grid, size and players *)

Section SameArena.
Context (b1 b2 : Board.t) (Hsame : sameArena b1 b2).

Lemma isValidPosition_same (row col : Z) :
  isValidPosition row col b1 = isValidPosition row col b2.
Proof. destruct Hsame as (_ & Hs & _). unfold isValidPosition. by rewrite Hs. Qed.

Lemma readCell_same (row col : Z) : readCell b1 row col = readCell b2 row col.
Proof. destruct Hsame as (Hg & _ & _). unfold readCell. by rewrite Hg. Qed.

Lemma isCellEmpty_same (row col : Z) :
  isCellEmpty row col b1 = isCellEmpty row col b2.
Proof.
  unfold isCellEmpty. by rewrite isValidPosition_same, readCell_same.
Qed.

Lemma cellsFree_same (cells : list Cell) : cellsFree b1 cells = cellsFree b2 cells.
Proof.
  induction cells as [|[r c] rest IH]; cbn [cellsFree]; [done|].
  by rewrite isValidPosition_same, isCellEmpty_same, IH.
Qed.

Lemma touchesCorner_same (shape : Shape) (row col : Z) :
  touchesCorner shape row col b1 = touchesCorner shape row col b2.
Proof. destruct Hsame as (_ & Hs & _). unfold touchesCorner. by rewrite Hs. Qed.

Lemma touchesAt_same (deltas : list Cell) (row col pid : Z) :
  touchesAt deltas row col b1 pid = touchesAt deltas row col b2 pid.
Proof.
  induction deltas as [|[dx dy] rest IH]; cbn [touchesAt]; [done|].
  by rewrite isValidPosition_same, readCell_same, IH.
Qed.

Lemma scanTouches_same (cells : list Cell) (pid : Z) (flags : bool * bool) :
  scanTouches b1 cells pid flags = scanTouches b2 cells pid flags.
Proof.
  revert flags. induction cells as [|[r c] rest IH]; intros flags;
    cbn [scanTouches]; [done|].
  unfold touchesPlayerCorner, touchesPlayerEdge.
  rewrite !touchesAt_same.
  destruct (touchesAt cornerDeltas r c b2 pid); [|done].
  destruct (touchesAt edgeDeltas r c b2 pid); [|done].
  cbn [mbind outcome_bind]. apply IH.
Qed.

Lemma findPlayer_same (pid : Z) : findPlayer b1 pid = findPlayer b2 pid.
Proof. destruct Hsame as (_ & _ & Hp). unfold findPlayer. by rewrite Hp. Qed.

Lemma isValidPlacement_same (shape : Shape) (row col pid : Z) :
  isValidPlacement b1 shape row col pid = isValidPlacement b2 shape row col pid.
Proof.
  unfold isValidPlacement.
  by rewrite findPlayer_same, touchesCorner_same, scanTouches_same.
Qed.

Lemma canPlacePiece_same (piece : Piece.t) (row col pid : Z) :
  canPlacePiece b1 piece row col pid = canPlacePiece b2 piece row col pid.
Proof.
  unfold canPlacePiece.
  by rewrite findPlayer_same, cellsFree_same, isValidPlacement_same.
Qed.

Lemma getNextPlayer_same (pid : Z) : getNextPlayer b1 pid = getNextPlayer b2 pid.
Proof. destruct Hsame as (_ & _ & Hp). unfold getNextPlayer. by rewrite Hp. Qed.

End SameArena.


Lemma sameArena_withCurrentPlayer (cp : option Z) (b : Board.t) :
  sameArena (withCurrentPlayer cp b) b.
Proof. done. Qed.

Lemma placePiece_status (now : Z) (b b' : Board.t) (piece : Piece.t)
  (row col pid : Z) :
  placePiece now b piece row col pid = Ret b' →
  Board.status b' = Board.status b.
Proof.
  intros Hp.
  assert (Hcan : canPlacePiece b piece row col pid = Ret true).
  { apply (placePiece_Ret_iff now). eauto. }
  destruct (placePiece_success now _ _ _ _ _ Hcan) as (g' & _ & _ & Hp').
  rewrite Hp in Hp'. by injection Hp' as ->.
Qed.


Lemma placePiece_withCurrentPlayer (now : Z) (cp : option Z) (b : Board.t)
  (piece : Piece.t) (row col pid : Z) :
  placePiece now (withCurrentPlayer cp b) piece row col pid =
  placePiece now b piece row col pid.
Proof.
  unfold placePiece.
  rewrite (canPlacePiece_same _ _ (sameArena_withCurrentPlayer cp b)).
  by rewrite (getNextPlayer_same _ _ (sameArena_withCurrentPlayer cp b)).
Qed.

(** ** Reachable boards *)

Lemma startGame_Ret (b b' : Board.t) (n : Z) :
  startGame (Some b) n = Ret b' →
  2 <= n <= 4 ∧
  Board.grid b' = Board.grid b ∧
  Board.size b' = Board.size b ∧
  Board.players b' = take (Z.to_nat n) (Board.players b) ∧
  Board.currentPlayer b' = Some 1 ∧
  Board.status b' = IN_PROGRESS ∧
  Board.moveHistory b' = Board.moveHistory b.
Proof.
  unfold startGame.
  destruct (Z.ltb_spec n 2); [done|]. destruct (Z.ltb_spec 4 n); [done|].
  simpl. intros [= <-]. simpl. repeat split; lia.
Qed.

(** No operation of the engine sets the status to [FINISHED]. *)
Lemma reachable_not_finished (b : Board.t) :
  reachable b → Board.status b ≠ FINISHED.
Proof.
  induction 1 as [|b n b' _ IH Hs|b now piece row col pid b' _ IH Hp].
  - done.
  - apply startGame_Ret in Hs as (_ & _ & _ & _ & _ & -> & _). done.
  - by rewrite (placePiece_status _ _ _ _ _ _ _ Hp).
Qed.

(** ** Status and turn order are not consulted *)



(** C10.  Placement does not look at [currentPlayer]: verdict and result
    are the same whatever the board's current player is.  In particular a
    placement that [canPlacePiece] allows is carried out by [placePiece]
    also when the board's current player is someone else. *)
Theorem placePiece_does_not_enforce_turn_order (now : Z) (b : Board.t)
  (piece : Piece.t) (row col pid : Z) :
  Board.status b = IN_PROGRESS →
  is_Some (findPlayer b pid) →
  Board.currentPlayer b ≠ Some pid →
  canPlacePiece b piece row col pid = Ret true →
  (∃ b', placePiece now b piece row col pid = Ret b') ∧
  (∀ cp : option Z,
     canPlacePiece (withCurrentPlayer cp b) piece row col pid =
       canPlacePiece b piece row col pid ∧
     placePiece now (withCurrentPlayer cp b) piece row col pid =
       placePiece now b piece row col pid).
Proof.
  intros _ _ _ Hcan. split; [by apply placePiece_Ret_iff|].
  intros cp. split; [|apply placePiece_withCurrentPlayer].
  apply canPlacePiece_same, sameArena_withCurrentPlayer.
Qed.

(** ** Scores *)

Lemma length_normalize (cells : Shape) : length (normalize cells) = length cells.
Proof. unfold normalize. by rewrite length_fmap. Qed.

Lemma length_rotatePiece (shape : Shape) :
  length (rotatePiece shape) = length shape.
Proof. unfold rotatePiece. by rewrite length_normalize, length_fmap. Qed.

Lemma length_flipPiece (shape : Shape) : length (flipPiece shape) = length shape.
Proof. unfold flipPiece. by rewrite length_normalize, length_fmap. Qed.

Lemma length_getTransformedShape (piece : Piece.t) :
  length (getTransformedShape piece) = length (Piece.shape piece).
Proof.
  unfold getTransformedShape.
  assert (∀ n, length (Nat.iter n rotatePiece (Piece.shape piece)) =
               length (Piece.shape piece)) as Hiter.
  { induction n as [|n IH]; [done|]. simpl. by rewrite length_rotatePiece. }
  destruct (Piece.flipped piece); [rewrite length_flipPiece|]; apply Hiter.
Qed.

Lemma usedSum_cons (p : Piece.t) (ps : list Piece.t) :
  usedSum (p :: ps) = (if Piece.used p then cellCount p else 0) + usedSum ps.
Proof. unfold usedSum. simpl. by destruct (Piece.used p). Qed.

Lemma markUsed_id (piece q : Piece.t) :
  Piece.id (markUsed piece q) = Piece.id q.
Proof. apply markUsed_fields. Qed.

Lemma markUsed_ids (piece : Piece.t) (ps : list Piece.t) :
  Piece.id <$> (markUsed piece <$> ps) = Piece.id <$> ps.
Proof.
  rewrite <- list_fmap_compose. apply list_fmap_ext.
  intros i q _. apply markUsed_id.
Qed.

Lemma markUsed_absent (piece : Piece.t) (ps : list Piece.t) :
  Piece.id piece ∉ Piece.id <$> ps → markUsed piece <$> ps = ps.
Proof.
  induction ps as [|p ps IH]; [done|]. rewrite fmap_cons, not_elem_of_cons.
  intros [Hne Hnin]. rewrite fmap_cons, IH by done. f_equal.
  unfold markUsed. destruct (String.eqb_spec (Piece.id p) (Piece.id piece));
    [congruence|done].
Qed.

Lemma usedSum_markUsed (piece q : Piece.t) (ps : list Piece.t) :
  NoDup (Piece.id <$> ps) →
  q ∈ ps → Piece.id q = Piece.id piece → Piece.used q = false →
  usedSum (markUsed piece <$> ps) = usedSum ps + cellCount q.
Proof.
  induction ps as [|p ps IH]; intros Hnd Hin Hid Hused.
  - by apply elem_of_nil in Hin.
  - rewrite fmap_cons in Hnd. apply NoDup_cons in Hnd as [Hnin Hnd].
    rewrite fmap_cons, !usedSum_cons.
    destruct (decide (Piece.id p = Piece.id piece)) as [Heq|Hne].
    + assert (q = p) as ->.
      { apply elem_of_cons in Hin as [?|Hin]; [done|]. exfalso. apply Hnin.
        rewrite Heq, <- Hid. by apply list_elem_of_fmap_2. }
      rewrite markUsed_absent by (by rewrite <- Heq).
      unfold markUsed. rewrite Heq, String.eqb_refl. cbn [Piece.used].
      rewrite Hused. unfold cellCount. cbn [Piece.shape]. lia.
    + assert (q ∈ ps) as Hin'.
      { apply elem_of_cons in Hin as [->|?]; [congruence|done]. }
      rewrite (IH Hnd Hin' Hid Hused).
      unfold markUsed at 1 2.
      destruct (String.eqb_spec (Piece.id p) (Piece.id piece)); [done|]. lia.
Qed.

Lemma NoDup_fmap_eq {A B : Type} (f : A → B) (l : list A) (x y : A) :
  NoDup (f <$> l) → x ∈ l → y ∈ l → f x = f y → x = y.
Proof.
  intros Hnd Hx Hy Hf.
  apply list_elem_of_lookup_1 in Hx as [i Hi].
  apply list_elem_of_lookup_1 in Hy as [j Hj].
  assert ((f <$> l) !! i = Some (f x)) as Hi' by (by rewrite list_lookup_fmap, Hi).
  assert ((f <$> l) !! j = Some (f x)) as Hj'
    by (by rewrite list_lookup_fmap, Hj, Hf).
  pose proof (NoDup_lookup _ _ _ _ Hnd Hi' Hj') as ->. congruence.
Qed.

Lemma updatePlayer_ids (piece : Piece.t) (shape : Shape) (pid : Z)
  (players : list Player.t) :
  Player.id <$> (updatePlayer piece shape pid <$> players) =
  Player.id <$> players.
Proof.
  rewrite <- list_fmap_compose. apply list_fmap_ext.
  intros i pl _. apply updatePlayer_id.
Qed.

Lemma scoresConsistent_createBoard : scoresConsistent createBoard.
Proof.
  split.
  - by apply (bool_decide_unpack _); vm_compute.
  - repeat constructor; by apply (bool_decide_unpack _); vm_compute.
Qed.

Lemma scoresConsistent_startGame (b b' : Board.t) (n : Z) :
  scoresConsistent b → startGame (Some b) n = Ret b' → scoresConsistent b'.
Proof.
  intros [Hnd Hall] Hs.
  apply startGame_Ret in Hs as (_ & _ & _ & Hp & _). unfold scoresConsistent.
  rewrite Hp. split.
  - rewrite fmap_take. eapply sublist_NoDup; [exact Hnd|apply sublist_take].
  - by apply Forall_take.
Qed.

Lemma scoresConsistent_placePiece (now : Z) (b b' : Board.t)
  (piece : Piece.t) (row col pid : Z) :
  scoresConsistent b →
  ownPiece b pid piece →
  placePiece now b piece row col pid = Ret b' →
  scoresConsistent b'.
Proof.
  intros [Hnd Hall] (player & q & Hfind & Hq & Hqid & Hqshape & Hqused) Hp.
  assert (Hcan : canPlacePiece b piece row col pid = Ret true).
  { apply (placePiece_Ret_iff now). eauto. }
  destruct (placePiece_success now _ _ _ _ _ Hcan) as (g' & _ & _ & Hp').
  rewrite Hp in Hp'. injection Hp' as ->.
  apply canPlacePiece_true in Hcan as (Hunused & _).
  apply findPlayer_Some in Hfind as [Hplayer Hpid].
  unfold scoresConsistent. cbn [Board.players].
  split; [by rewrite updatePlayer_ids|].
  apply Forall_fmap, Forall_forall. intros pl Hpl.
  destruct (proj1 (Forall_forall _ _) Hall pl Hpl) as [Hndp Hscore].
  unfold compose.
  destruct (decide (Player.id pl = pid)) as [Heq|Hne].
  - assert (pl = player) as ->.
    { eapply (NoDup_fmap_eq Player.id); [exact Hnd|done|done|congruence]. }
    rewrite (updatePlayer_same _ _ _ _ Heq).
    unfold usedCells. cbn [Player.pieces Player.score].
    split; [by rewrite markUsed_ids|].
    rewrite (usedSum_markUsed piece q) by (done || congruence).
    rewrite length_getTransformedShape. unfold cellCount.
    rewrite Hqshape. unfold usedCells in Hscore. lia.
  - by rewrite (updatePlayer_other _ _ _ _ Hne).
Qed.

(** C6, counterexample.  [afterReuse] is reached from [createBoard] by
    [startGame] and two successful [placePiece] calls, both with the same
    piece value [I1]; player 1 then has score 2 while the used pieces of
    player 1 (only [I1]) have 1 cell. *)
Lemma score_exceeds_used_cells_after_reuse :
  reachable afterReuse ∧
  ∃ p1, findPlayer afterReuse 1 = Some p1 ∧
        Player.score p1 = 2 ∧ usedCells p1 = 1.
Proof.
  split.
  - apply (reach_place afterFirstMove 1 pieceI1 1 1 1); [|by vm_compute].
    apply (reach_place startedBoard 0 pieceI1 0 0 1); [|by vm_compute].
    apply (reach_start createBoard 4); [|by vm_compute].
    apply reach_create.
  - eexists. split; [vm_compute; reflexivity|]. by split.
Qed.

(** C6, as the code has it.  On every board reached from [createBoard] by
    [startGame] and successful [placePiece] calls in which the placed
    piece is taken from the placing player's own piece set on the current
    board, each player's score is the sum of the cell counts of that
    player's used pieces. *)
Theorem score_is_sum_of_used_cells (b : Board.t) (player : Player.t) :
  reachableOwn b →
  player ∈ Board.players b →
  Player.score player = usedCells player.
Proof.
  intros Hreach Hin.
  assert (Hinv : scoresConsistent b).
  { clear Hin.
    induction Hreach as [|b n b' _ IH Hs
                         |b now piece row col pid b' _ IH Hown Hp].
    - apply scoresConsistent_createBoard.
    - by eapply scoresConsistent_startGame.
    - by eapply scoresConsistent_placePiece. }
  destruct Hinv as [_ Hall].
  eapply Forall_forall in Hall; [|exact Hin]. apply Hall.
Qed.

Lemma placedCells_snoc (history : list Move.t) (m : Move.t) (pid : Z) :
  placedCells (history ++ [m]) pid =
  placedCells history pid +
  (if Move.playerId m =? pid then Z.of_nat (length (Move.shape m)) else 0).
Proof.
  unfold placedCells. rewrite List.filter_app, fmap_app, foldr_app. simpl.
  destruct (Move.playerId m =? pid); simpl.
  - induction (_ <$> List.filter _ history) as [|x xs IH]; simpl; lia.
  - lia.
Qed.

(** X19.  On every reachable board, whatever pieces were handed to
    [placePiece], a player's score is the number of cells of the moves
    recorded for that player. *)
Lemma score_is_sum_of_placed_cells (b : Board.t) (player : Player.t) :
  reachable b →
  player ∈ Board.players b →
  Player.score player = placedCells (Board.moveHistory b) (Player.id player).
Proof.
  intros Hreach. revert player.
  induction Hreach as [|b n b' _ IH Hs|b now piece row col pid b' _ IH Hp];
    intros player Hin.
  - cbn in Hin. repeat (apply elem_of_cons in Hin as [->|Hin]; [done|]).
    by apply elem_of_nil in Hin.
  - apply startGame_Ret in Hs as (_ & _ & _ & Hpl & _ & _ & Hh).
    rewrite Hh. apply IH. rewrite Hpl in Hin.
    eapply elem_of_sublist; [exact Hin|apply sublist_take].
  - assert (Hcan : canPlacePiece b piece row col pid = Ret true).
    { apply (placePiece_Ret_iff now). eauto. }
    destruct (placePiece_success now _ _ _ _ _ Hcan) as (g' & _ & _ & Hp').
    rewrite Hp in Hp'. injection Hp' as ->.
    cbn [Board.players Board.moveHistory] in *.
    apply list_elem_of_fmap in Hin as (pl & -> & Hpl).
    rewrite updatePlayer_id, placedCells_snoc. cbn [Move.playerId Move.shape].
    rewrite (Z.eqb_sym pid). unfold updatePlayer.
    destruct (Player.id pl =? pid); cbn [Player.score]; rewrite (IH _ Hpl); lia.
Qed.

(** ** Game over *)

Lemma isGameOver_finished (b : Board.t) :
  Board.status b = FINISHED → isGameOver b = Ret true.
Proof. intros Hs. unfold isGameOver. by rewrite Hs. Qed.

Lemma isGameOver_waiting (b : Board.t) :
  Board.status b = WAITING → isGameOver b = Ret false.
Proof. intros Hs. unfold isGameOver. by rewrite Hs. Qed.

Lemma anyM_false {A : Type} (f : A → outcome bool) (xs : list A) :
  anyM f xs = Ret false → ∀ x, x ∈ xs → f x = Ret false.
Proof.
  induction xs as [|y ys IH]; intros Hany x Hin.
  - by apply elem_of_nil in Hin.
  - cbn [anyM] in Hany. destruct (f y) as [[|]|e] eqn:Hy; try done.
    cbn [mbind outcome_bind] in Hany.
    apply elem_of_cons in Hin as [->|Hin]; [done|by apply IH].
Qed.

(** The search of [canPlayerMove] is exhaustive: when it answers [false],
    every unused piece of the player is refused in each of the four
    rotations, flipped or not, at every position of the board. *)
Lemma canPlayerMove_false (b : Board.t) (pid : Z) (player : Player.t)
  (q : Piece.t) (rotation : Z) (flipped : bool) (row col : Z) :
  canPlayerMove b pid = Ret false →
  findPlayer b pid = Some player →
  q ∈ Player.pieces player → Piece.used q = false →
  0 <= rotation < 4 →
  0 <= row < Board.size b → 0 <= col < Board.size b →
  canPlacePiece b (Piece.mk (Piece.id q) (Piece.shape q) (Piece.used q)
                            rotation flipped) row col pid = Ret false.
Proof.
  intros Hmove Hfind Hq Hused Hrot Hrow Hcol.
  unfold canPlayerMove in Hmove. rewrite Hfind in Hmove. cbv zeta in Hmove.
  assert (Hq' : q ∈ List.filter (fun p => negb (Piece.used p))
                                (Player.pieces player)).
  { apply list_elem_of_In, filter_In. split; [by apply list_elem_of_In|].
    by rewrite Hused. }
  assert (Hrot' : rotation ∈ [0; 1; 2; 3]).
  { assert (rotation = 0 ∨ rotation = 1 ∨ rotation = 2 ∨ rotation = 3)
      as [-> | [-> | [-> | ->]]] by lia; repeat constructor. }
  assert (Hflip : flipped ∈ [false; true]) by (destruct flipped; repeat constructor).
  assert (Hrow' : row ∈ seqZ 0 (Board.size b)) by (apply elem_of_seqZ; lia).
  assert (Hcol' : col ∈ seqZ 0 (Board.size b)) by (apply elem_of_seqZ; lia).
  pose proof (anyM_false _ _ Hmove _ Hq') as H1. cbn beta in H1.
  pose proof (anyM_false _ _ H1 _ Hrot') as H2. cbn beta in H2.
  pose proof (anyM_false _ _ H2 _ Hflip) as H3. cbn beta in H3.
  pose proof (anyM_false _ _ H3 _ Hrow') as H4. cbn beta in H4.
  exact (anyM_false _ _ H4 _ Hcol').
Qed.

(** X18.  When [isGameOver] holds on a game in progress, [placePiece]
    refuses, with the illegal-move error, every unused piece of every
    player's set, in each of the rotation counts 0 to 3, flipped or not,
    at every position of the board. *)
Lemma game_over_refuses_own_unused_pieces (now : Z) (b : Board.t)
  (player : Player.t) (q : Piece.t) (rotation : Z) (flipped : bool)
  (row col : Z) :
  Board.status b = IN_PROGRESS →
  isGameOver b = Ret true →
  findPlayer b (Player.id player) = Some player →
  q ∈ Player.pieces player → Piece.used q = false →
  0 <= rotation < 4 →
  0 <= row < Board.size b → 0 <= col < Board.size b →
  placePiece now b (Piece.mk (Piece.id q) (Piece.shape q) (Piece.used q)
                             rotation flipped) row col (Player.id player) =
  Throw IllegalMove.
Proof.
  intros Hs Hover Hfind Hq Hused Hrot Hrow Hcol.
  apply placePiece_IllegalMove_iff. eapply canPlayerMove_false; try done.
  unfold isGameOver in Hover. rewrite Hs in Hover.
  rewrite decide_False in Hover by (by intros ?).
  destruct (anyM _ (Board.players b)) as [[|]|e] eqn:Hany; try done.
  apply (anyM_false _ _ Hany player).
  apply findPlayer_Some in Hfind as [Hin _]. done.
Qed.

(** ** Four quarter turns, for any shape *)

Lemma math_min_shift (k : Z) (xs : list Z) :
  xs ≠ [] → math_min ((fun x => x + k) <$> xs) = math_min xs + k.
Proof.
  destruct xs as [|x rest]; [done|]. intros _. cbn [fmap list_fmap math_min].
  induction rest as [|y rest IH]; [done|].
  cbn [fmap list_fmap foldr] in *. rewrite IH. lia.
Qed.

Lemma opp_opp_fmap (xs : list Z) : Z.opp <$> (Z.opp <$> xs) = xs.
Proof.
  rewrite <- list_fmap_compose. rewrite <- (list_fmap_id xs) at 2.
  apply list_fmap_ext. intros i x _. simpl. lia.
Qed.

Lemma math_min_sub_from (k : Z) (xs : list Z) :
  xs ≠ [] → math_min ((fun x => k - x) <$> xs) = k - math_max xs.
Proof.
  intros Hne. unfold math_max.
  replace ((fun x => k - x) <$> xs) with ((fun x => x + k) <$> (Z.opp <$> xs)).
  - rewrite math_min_shift by (by destruct xs). lia.
  - rewrite <- list_fmap_compose. apply list_fmap_ext.
    intros i x _. simpl. lia.
Qed.

Lemma math_max_sub (k : Z) (xs : list Z) :
  xs ≠ [] → math_max ((fun x => x - k) <$> xs) = math_max xs - k.
Proof.
  intros Hne. unfold math_max.
  replace (Z.opp <$> ((fun x => x - k) <$> xs))
    with ((fun x => x + k) <$> (Z.opp <$> xs)).
  - rewrite math_min_shift by (by destruct xs). lia.
  - rewrite <- !list_fmap_compose. apply list_fmap_ext.
    intros i x _. simpl. lia.
Qed.

Lemma math_max_sub_from (k : Z) (xs : list Z) :
  xs ≠ [] → math_max ((fun x => k - x) <$> xs) = k - math_min xs.
Proof.
  intros Hne. unfold math_max.
  replace (Z.opp <$> ((fun x => k - x) <$> xs))
    with ((fun x => x + - k) <$> xs).
  - rewrite math_min_shift by done. lia.
  - rewrite <- !list_fmap_compose. apply list_fmap_ext.
    intros i x _. simpl. lia.
Qed.

Lemma rotatePiece_formula (s : Shape) :
  rotatePiece s =
  (fun c : Cell => (c.2 - math_min (snd <$> s), math_max (fst <$> s) - c.1))
    <$> s.
Proof.
  assert (H1 : fst <$> ((fun c : Cell => (c.2, - c.1)) <$> s) = snd <$> s).
  { rewrite <- list_fmap_compose. by apply list_fmap_ext. }
  assert (H2 : snd <$> ((fun c : Cell => (c.2, - c.1)) <$> s) =
               Z.opp <$> (fst <$> s)).
  { rewrite <- !list_fmap_compose. by apply list_fmap_ext. }
  unfold rotatePiece, normalize, math_max. rewrite H1, H2.
  rewrite <- list_fmap_compose. apply list_fmap_ext.
  intros i [x y] _. cbn [compose fst snd]. f_equal. lia.
Qed.

Lemma rotatePiece_twice (s : Shape) :
  s ≠ [] →
  rotatePiece (rotatePiece s) =
  (fun c : Cell => (math_max (fst <$> s) - c.1, math_max (snd <$> s) - c.2))
    <$> s.
Proof.
  intros Hne.
  assert (Hsnd : snd <$> rotatePiece s =
                 (fun x => math_max (fst <$> s) - x) <$> (fst <$> s)).
  { rewrite rotatePiece_formula, <- !list_fmap_compose. done. }
  assert (Hfst : fst <$> rotatePiece s =
                 (fun y => y - math_min (snd <$> s)) <$> (snd <$> s)).
  { rewrite rotatePiece_formula, <- !list_fmap_compose. done. }
  rewrite (rotatePiece_formula (rotatePiece s)), Hsnd, Hfst.
  rewrite math_min_sub_from, math_max_sub by (by destruct s).
  rewrite (rotatePiece_formula s), <- list_fmap_compose.
  apply list_fmap_ext. intros i [x y] _. cbn [compose fst snd]. f_equal; lia.
Qed.

(** Four rotations of any shape give the shape in normal form: its cells
    shifted so that the smallest row and column offsets are 0. *)
Lemma rotatePiece_four_times (s : Shape) :
  rotatePiece (rotatePiece (rotatePiece (rotatePiece s))) = normalize s.
Proof.
  destruct (decide (s = [])) as [->|Hne]; [done|].
  assert (Hne2 : rotatePiece (rotatePiece s) ≠ []).
  { rewrite rotatePiece_twice by done. by destruct s. }
  assert (Hfst : fst <$> rotatePiece (rotatePiece s) =
                 (fun x => math_max (fst <$> s) - x) <$> (fst <$> s)).
  { rewrite rotatePiece_twice, <- !list_fmap_compose by done. done. }
  assert (Hsnd : snd <$> rotatePiece (rotatePiece s) =
                 (fun y => math_max (snd <$> s) - y) <$> (snd <$> s)).
  { rewrite rotatePiece_twice, <- !list_fmap_compose by done. done. }
  rewrite (rotatePiece_twice _ Hne2), Hfst, Hsnd.
  rewrite !math_max_sub_from by (by destruct s).
  rewrite (rotatePiece_twice s Hne), <- list_fmap_compose.
  unfold normalize. apply list_fmap_ext.
  intros i [x y] _. cbn [compose fst snd]. f_equal; lia.
Qed.

(** ** The piece catalog *)

(** Every catalog shape is in normal form. *)
Lemma normalize_catalog :
  Forall (fun entry : string * Shape => normalize entry.2 = entry.2)
         PIECE_SHAPES.
Proof. by apply (bool_decide_unpack _); vm_compute. Qed.

(** C8.  The catalog has 21 entries, and for each of them four successive
    rotations give back the cells of the original shape (here even in the
    original order). *)
Theorem rotate_four_times_is_identity_on_catalog (name : string)
  (shape : Shape) :
  (name, shape) ∈ PIECE_SHAPES →
  length PIECE_SHAPES = 21%nat ∧
  (∀ cell : Cell,
     cell ∈ rotatePiece (rotatePiece (rotatePiece (rotatePiece shape))) ↔
     cell ∈ shape) ∧
  rotatePiece (rotatePiece (rotatePiece (rotatePiece shape))) = shape.
Proof.
  intros Hin. split; [reflexivity|].
  pose proof (proj1 (Forall_forall _ _) normalize_catalog _ Hin) as Heq.
  cbn [snd] in Heq. rewrite rotatePiece_four_times, Heq. by split.
Qed.

(** C9, counterexample.  The catalog entry [X5] starts with the cell
    (1,0). *)
Lemma catalog_X5_first_cell_is_not_origin :
  ∃ shape : Shape,
    PIECE_SHAPES !! 17%nat = Some ("X5", shape) ∧
    head shape = Some (1, 0) ∧ head shape ≠ Some (0, 0).
Proof. eexists. split; [reflexivity|]. by split. Qed.

(** C9, as the code has it.  In every entry of the 21-shape catalog the
    smallest row offset and the smallest column offset are both 0.  The
    first cell is (0,0) in every entry but [X5] and [F5]; these two do
    not contain (0,0) at all and start with (1,0). *)
Theorem catalog_first_cell_and_normal_form :
  length PIECE_SHAPES = 21%nat ∧
  Forall (fun entry : string * Shape =>
            math_min (fst <$> entry.2) = 0 ∧
            math_min (snd <$> entry.2) = 0 ∧
            (entry.1 ≠ "X5" ∧ entry.1 ≠ "F5" → head entry.2 = Some (0, 0)) ∧
            (entry.1 = "X5" ∨ entry.1 = "F5" →
             head entry.2 = Some (1, 0) ∧ (0, 0) ∉ entry.2))
         PIECE_SHAPES.
Proof.
  split; [reflexivity|]. by apply (bool_decide_unpack _); vm_compute.
Qed.

(** ** The theorems at work on the example boards *)

Ltac cells_checked :=
  repeat constructor; cbn; first [lia | reflexivity].



Lemma resolved_L4turned :
  getTransformedShape pieceL4turned = [(1, 2); (1, 1); (1, 0); (0, 2)].
Proof. reflexivity. Defined.

(** The turned and flipped [L4] anchored at (18,17) covers (19,19),
    (19,18), (19,17) and (18,19), so its first placement is allowed;
    anchored at (5,5) it covers no board corner and is refused. *)
Lemma canPlace_first_piece_witness :
  canPlacePiece startedBoard pieceL4turned 18 17 1 = Ret true ∧
  canPlacePiece startedBoard pieceL4turned 5 5 1 = Ret false.
Proof.
  split.
  - eapply (canPlace_first_piece_iff_board_corner
              startedBoard pieceL4turned 18 17 1).
    + vm_compute. reflexivity.
    + reflexivity.
    + reflexivity.
    + rewrite resolved_L4turned. cells_checked.
    + exists (1, 2). split; [rewrite resolved_L4turned; apply list_elem_of_here|].
      vm_compute. do 3 apply list_elem_of_further. apply list_elem_of_here.
  - edestruct (canPlace_first_piece_iff_board_corner
                 startedBoard pieceL4turned 5 5 1) as [[v Hv] Hiff].
    + vm_compute. reflexivity.
    + reflexivity.
    + reflexivity.
    + rewrite resolved_L4turned. cells_checked.
    + destruct v; [|exact Hv]. exfalso.
      apply Hiff in Hv as (d & Hd & Hc). rewrite resolved_L4turned in Hd.
      revert Hc.
      apply Forall_forall with (x := d) (l := [(1, 2); (1, 1); (1, 0); (0, 2)]);
        [|exact Hd].
      repeat constructor; by apply (bool_decide_unpack _); vm_compute.
Defined.

(** Placing the turned and flipped [L4] at (18,17) on the fresh board
    stamps (19,19), (19,18), (19,17) and (18,19) for player 1, leaves the
    anchor's own cell (18,17) and the cell (0,0) empty, and hands the turn
    to player 2. *)
Lemma placePiece_builds_next_board_witness :
  ∃ b', placePiece 0 startedBoard pieceL4turned 18 17 1 = Ret b' ∧
        owner b' (19, 19) = Some 1 ∧ owner b' (19, 18) = Some 1 ∧
        owner b' (19, 17) = Some 1 ∧ owner b' (18, 19) = Some 1 ∧
        owner b' (18, 17) = Some 0 ∧ owner b' (0, 0) = Some 0 ∧
        Board.currentPlayer b' = Some 2.
Proof.
  destruct (placePiece_builds_next_board 0 startedBoard pieceL4turned 18 17 1)
    as (b' & Hp & Hnew & Hold & _ & _ & _ & _ & (i & Hi & _ & Hcur) & _).
  - vm_compute. reflexivity.
  - exists b'. split; [exact Hp|].
    rewrite resolved_L4turned in Hnew, Hold.
    split; [apply (Hnew (1, 2)); repeat constructor|].
    split; [apply (Hnew (1, 1)); repeat constructor|].
    split; [apply (Hnew (1, 0)); repeat constructor|].
    split; [apply (Hnew (0, 2)); repeat constructor|].
    split.
    { rewrite Hold; [reflexivity|]. apply Forall_forall.
      repeat constructor; by apply (bool_decide_unpack _); vm_compute. }
    split.
    { rewrite Hold; [reflexivity|]. apply Forall_forall.
      repeat constructor; by apply (bool_decide_unpack _); vm_compute. }
    rewrite Hcur. destruct i as [|[|[|[|i]]]]; try discriminate Hi.
    reflexivity.
Defined.


Lemma ownPiece_startedBoard_I1 : ownPiece startedBoard 1 pieceI1.
Proof.
  eexists _, _. split; [vm_compute; reflexivity|].
  split; [apply list_elem_of_here|]. repeat split.
Defined.

Lemma reachableOwn_afterFirstMove : reachableOwn afterFirstMove.
Proof.
  apply (reachOwn_place startedBoard 0 pieceI1 0 0 1).
  - apply (reachOwn_start createBoard 4); [apply reachOwn_create|].
    vm_compute. reflexivity.
  - exact ownPiece_startedBoard_I1.
  - vm_compute. reflexivity.
Defined.

Lemma score_is_sum_of_used_cells_witness :
  ∃ p1, findPlayer afterFirstMove 1 = Some p1 ∧
        Player.score p1 = usedCells p1.
Proof.
  eexists. split; [vm_compute; reflexivity|].
  apply (score_is_sum_of_used_cells afterFirstMove).
  - exact reachableOwn_afterFirstMove.
  - apply list_elem_of_here.
Defined.

Lemma placePiece_does_not_mutate_argument_witness :
  Heap.view startedHeapRun.1 startedHeapBoard =
  Heap.view startedHeap startedHeapBoard.
Proof.
  eapply (placePiece_does_not_mutate_argument 0 startedHeap startedHeapRun.1
            startedHeapBoard _ pieceI1 0 0 1).
  - unfold Heap.allocated. repeat constructor.
  - vm_compute. reflexivity.
Defined.

Lemma turn_order_witness :
  ∃ b', placePiece 0 startedBoard pieceI1 0 0 2 = Ret b'.
Proof.
  apply (placePiece_does_not_enforce_turn_order 0 startedBoard pieceI1 0 0 2).
  - reflexivity.
  - vm_compute. eauto.
  - vm_compute. discriminate.
  - vm_compute. reflexivity.
Defined.

Lemma rotate_four_times_witness :
  rotatePiece (rotatePiece (rotatePiece (rotatePiece [(0, 0)]))) = [(0, 0)].
Proof.
  apply (rotate_four_times_is_identity_on_catalog "I1" [(0, 0)]).
  apply list_elem_of_here.
Defined.

(** * Further properties of the engine *)

(** ** Normal form of transformed shapes *)

Lemma math_min_le (xs : list Z) (x : Z) : x ∈ xs → math_min xs <= x.
Proof.
  destruct xs as [|y rest]; [by intros ?%elem_of_nil|]. cbn [math_min].
  revert y. induction rest as [|z rest IH]; intros y Hin.
  - apply list_elem_of_singleton in Hin as ->. simpl. lia.
  - cbn [foldr]. apply elem_of_cons in Hin as [->|Hin].
    + specialize (IH y (list_elem_of_here _ _)). lia.
    + apply elem_of_cons in Hin as [->|Hin]; [lia|].
      specialize (IH y (list_elem_of_further _ _ _ Hin)). lia.
Qed.

Lemma math_min_sub (k : Z) (xs : list Z) :
  xs ≠ [] → math_min ((fun x => x - k) <$> xs) = math_min xs - k.
Proof.
  intros Hne.
  replace ((fun x => x - k) <$> xs) with ((fun x => x + - k) <$> xs).
  - rewrite math_min_shift by done. lia.
  - apply list_fmap_ext. intros i x _. lia.
Qed.

Lemma fst_normalize (s : Shape) :
  fst <$> normalize s =
  (fun x => x - math_min (fst <$> s)) <$> (fst <$> s).
Proof. unfold normalize. rewrite <- !list_fmap_compose. by apply list_fmap_ext. Qed.

Lemma snd_normalize (s : Shape) :
  snd <$> normalize s =
  (fun y => y - math_min (snd <$> s)) <$> (snd <$> s).
Proof. unfold normalize. rewrite <- !list_fmap_compose. by apply list_fmap_ext. Qed.

Lemma normalize_min (s : Shape) :
  s ≠ [] →
  math_min (fst <$> normalize s) = 0 ∧ math_min (snd <$> normalize s) = 0.
Proof.
  intros Hne. rewrite fst_normalize, snd_normalize.
  rewrite !math_min_sub by (by destruct s). lia.
Qed.

Lemma normalize_fixed (s : Shape) :
  math_min (fst <$> s) = 0 → math_min (snd <$> s) = 0 → normalize s = s.
Proof.
  intros H1 H2. unfold normalize. rewrite H1, H2.
  rewrite <- (list_fmap_id s) at 2. apply list_fmap_ext.
  intros i [x y] _. simpl. f_equal; lia.
Qed.

Lemma normalize_idemp (s : Shape) : normalize (normalize s) = normalize s.
Proof.
  destruct (decide (s = [])) as [->|Hne]; [done|].
  destruct (normalize_min s Hne). by apply normalize_fixed.
Qed.

Lemma normalize_nonneg (s : Shape) (cell : Cell) :
  cell ∈ normalize s → 0 <= cell.1 ∧ 0 <= cell.2.
Proof.
  unfold normalize. intros Hin.
  apply list_elem_of_fmap in Hin as ([x y] & -> & Hin). cbn [fst snd].
  pose proof (math_min_le (fst <$> s) x
                (list_elem_of_fmap_2 fst _ (x, y) Hin)) as Hx.
  pose proof (math_min_le (snd <$> s) y
                (list_elem_of_fmap_2 snd _ (x, y) Hin)) as Hy.
  lia.
Qed.

Lemma rotatePiece_nil_iff (s : Shape) : rotatePiece s = [] ↔ s = [].
Proof. split; [|by intros ->]. by destruct s. Qed.

Lemma flipPiece_nil_iff (s : Shape) : flipPiece s = [] ↔ s = [].
Proof. split; [|by intros ->]. by destruct s. Qed.

(** X1.  Whatever shape goes in, [rotatePiece] and [flipPiece] return a
    shape in normal form: no offset is negative and, unless the shape is
    empty, the smallest row offset and the smallest column offset are 0.
    Normalising it again changes nothing. *)
Theorem rotate_and_flip_return_normal_form (s : Shape) :
  (∀ cell, cell ∈ rotatePiece s → 0 <= cell.1 ∧ 0 <= cell.2) ∧
  (∀ cell, cell ∈ flipPiece s → 0 <= cell.1 ∧ 0 <= cell.2) ∧
  (s ≠ [] →
   math_min (fst <$> rotatePiece s) = 0 ∧ math_min (snd <$> rotatePiece s) = 0 ∧
   math_min (fst <$> flipPiece s) = 0 ∧ math_min (snd <$> flipPiece s) = 0) ∧
  normalize (rotatePiece s) = rotatePiece s ∧
  normalize (flipPiece s) = flipPiece s.
Proof.
  split; [intros cell; apply normalize_nonneg|].
  split; [intros cell; apply normalize_nonneg|].
  split; [|split; apply normalize_idemp].
  intros Hne. unfold rotatePiece, flipPiece.
  destruct (normalize_min ((fun c : Cell => (c.2, - c.1)) <$> s))
    as [? ?]; [by destruct s|].
  destruct (normalize_min ((fun c : Cell => (- c.1, c.2)) <$> s))
    as [? ?]; [by destruct s|].
  done.
Qed.

(** ** Flipping twice, and the rotation count modulo 4 *)

Lemma flipPiece_formula (s : Shape) :
  flipPiece s =
  (fun c : Cell => (math_max (fst <$> s) - c.1, c.2 - math_min (snd <$> s)))
    <$> s.
Proof.
  assert (H1 : fst <$> ((fun c : Cell => (- c.1, c.2)) <$> s) =
               Z.opp <$> (fst <$> s)).
  { rewrite <- !list_fmap_compose. by apply list_fmap_ext. }
  assert (H2 : snd <$> ((fun c : Cell => (- c.1, c.2)) <$> s) = snd <$> s).
  { rewrite <- list_fmap_compose. by apply list_fmap_ext. }
  unfold flipPiece, normalize, math_max. rewrite H1, H2.
  rewrite <- list_fmap_compose. apply list_fmap_ext.
  intros i [x y] _. cbn [compose fst snd]. f_equal. lia.
Qed.

Lemma flipPiece_twice (s : Shape) : flipPiece (flipPiece s) = normalize s.
Proof.
  destruct (decide (s = [])) as [->|Hne]; [done|].
  assert (Hfst : fst <$> flipPiece s =
                 (fun x => math_max (fst <$> s) - x) <$> (fst <$> s)).
  { rewrite flipPiece_formula, <- !list_fmap_compose. done. }
  assert (Hsnd : snd <$> flipPiece s =
                 (fun y => y - math_min (snd <$> s)) <$> (snd <$> s)).
  { rewrite flipPiece_formula, <- !list_fmap_compose. done. }
  rewrite (flipPiece_formula (flipPiece s)), Hfst, Hsnd.
  rewrite math_max_sub_from, math_min_sub by (by destruct s).
  rewrite (flipPiece_formula s), <- list_fmap_compose.
  unfold normalize. apply list_fmap_ext.
  intros i [x y] _. cbn [compose fst snd]. f_equal; lia.
Qed.

(** X2.  Flipping any shape twice gives the shape in normal form.  So a
    second flip undoes the first on every shape that is in normal form
    already: on what [rotatePiece] and [flipPiece] return, and on each of
    the catalog's shapes. *)
Theorem flip_twice_is_normalize (s : Shape) :
  flipPiece (flipPiece s) = normalize s ∧
  flipPiece (flipPiece (rotatePiece s)) = rotatePiece s ∧
  flipPiece (flipPiece (flipPiece s)) = flipPiece s ∧
  Forall (fun entry : string * Shape =>
            flipPiece (flipPiece entry.2) = entry.2) PIECE_SHAPES.
Proof.
  split; [apply flipPiece_twice|].
  split; [rewrite flipPiece_twice; apply normalize_idemp|].
  split; [rewrite flipPiece_twice; apply normalize_idemp|].
  eapply Forall_impl; [apply normalize_catalog|].
  intros entry Hn. cbn beta in Hn. by rewrite flipPiece_twice.
Qed.

Lemma iter_rotate_normal (n : nat) (s : Shape) :
  (1 <= n)%nat →
  normalize (Nat.iter n rotatePiece s) = Nat.iter n rotatePiece s.
Proof.
  destruct n as [|n]; [lia|]. intros _. cbn [Nat.iter nat_rect].
  apply normalize_idemp.
Qed.

(** X3.  Only the rotation count modulo 4 matters to the resolved shape:
    four more quarter turns resolve to the same shape, for a piece whose
    base shape is in normal form (every catalog piece) from any count
    [0 <= r], and for any base shape from [1 <= r].  A negative count
    resolves like 0. *)
Theorem resolved_shape_depends_on_rotation_mod_4 (piece : Piece.t) (r : Z) :
  (0 <= r ∧ normalize (Piece.shape piece) = Piece.shape piece) ∨ 1 <= r →
  getTransformedShape (withRotation (r + 4) piece) =
  getTransformedShape (withRotation r piece) ∧
  getTransformedShape (withRotation (- r - 1) piece) =
  getTransformedShape (withRotation 0 piece).
Proof.
  intros Hr. unfold getTransformedShape, withRotation.
  cbn [Piece.rotation Piece.shape Piece.flipped]. split.
  - replace (Z.to_nat (r + 4)) with (4 + Z.to_nat r)%nat by lia.
    assert (Nat.iter (4 + Z.to_nat r) rotatePiece (Piece.shape piece) =
            Nat.iter (Z.to_nat r) rotatePiece (Piece.shape piece)) as ->;
      [|done].
    destruct Hr as [[Hr Hn]|Hr].
    + rewrite Nat.add_comm, Nat.iter_add. cbn [Nat.iter nat_rect].
      by rewrite rotatePiece_four_times, Hn.
    + rewrite Nat.iter_add. cbn [Nat.iter nat_rect].
      rewrite rotatePiece_four_times. apply iter_rotate_normal. lia.
  - replace (Z.to_nat (- r - 1)) with 0%nat by lia. done.
Qed.

Lemma resolved_shape_mod_4_witness :
  getTransformedShape (withRotation 6 pieceI2) =
  getTransformedShape (withRotation 2 pieceI2).
Proof.
  apply (resolved_shape_depends_on_rotation_mod_4 pieceI2 2).
  right. lia.
Defined.

(** ** Distinct cells stay distinct *)

Lemma NoDup_fmap_inj {A B : Type} (f : A → B) (l : list A) :
  (∀ x y, f x = f y → x = y) → NoDup l → NoDup (f <$> l).
Proof.
  intros Hinj. induction 1 as [|x l Hx Hnd IH]; [constructor|].
  rewrite fmap_cons. constructor; [|done].
  intros Hin. apply list_elem_of_fmap in Hin as (y & Hxy & Hy).
  apply Hinj in Hxy as ->. done.
Qed.

Lemma NoDup_normalize (s : Shape) : NoDup s → NoDup (normalize s).
Proof.
  unfold normalize. apply NoDup_fmap_inj.
  intros [x1 y1] [x2 y2] [= H1 H2]. f_equal; lia.
Qed.

Lemma NoDup_rotatePiece (s : Shape) : NoDup s → NoDup (rotatePiece s).
Proof.
  intros Hnd. apply NoDup_normalize, NoDup_fmap_inj; [|done].
  intros [x1 y1] [x2 y2] [= H1 H2]. f_equal; lia.
Qed.

Lemma NoDup_flipPiece (s : Shape) : NoDup s → NoDup (flipPiece s).
Proof.
  intros Hnd. apply NoDup_normalize, NoDup_fmap_inj; [|done].
  intros [x1 y1] [x2 y2] [= H1 H2]. f_equal; lia.
Qed.

(** X4.  A piece whose base shape lists no cell twice resolves, in every
    rotation and flip state, to a shape that lists no cell twice and has
    as many cells; anchored anywhere, it covers that many different
    cells. *)
Theorem resolved_shape_keeps_cells_distinct (piece : Piece.t) (row col : Z) :
  NoDup (Piece.shape piece) →
  NoDup (getTransformedShape piece) ∧
  length (getTransformedShape piece) = length (Piece.shape piece) ∧
  NoDup (absCells (getTransformedShape piece) row col) ∧
  length (absCells (getTransformedShape piece) row col) =
    length (Piece.shape piece).
Proof.
  intros Hnd.
  assert (Hres : NoDup (getTransformedShape piece)).
  { unfold getTransformedShape.
    assert (∀ n, NoDup (Nat.iter n rotatePiece (Piece.shape piece))) as Hiter.
    { induction n as [|n IH]; [done|]. by apply NoDup_rotatePiece. }
    destruct (Piece.flipped piece); [apply NoDup_flipPiece|]; apply Hiter. }
  split; [done|]. split; [apply length_getTransformedShape|]. split.
  - unfold absCells. apply NoDup_fmap_inj; [|done].
    intros [x1 y1] [x2 y2] [= H1 H2]. f_equal; lia.
  - unfold absCells. rewrite length_fmap. apply length_getTransformedShape.
Qed.

Lemma resolved_shape_keeps_cells_distinct_witness :
  NoDup (getTransformedShape (withRotation 1 pieceI2)).
Proof.
  apply (resolved_shape_keeps_cells_distinct (withRotation 1 pieceI2) 0 0).
  apply (bool_decide_unpack _). vm_compute. exact I.
Defined.

(** ** Flips and quarter turns together *)

Lemma flip_after_rotate (s : Shape) :
  s ≠ [] →
  flipPiece (rotatePiece s) =
  (fun c : Cell => (math_max (snd <$> s) - c.2, math_max (fst <$> s) - c.1))
    <$> s.
Proof.
  intros Hne.
  assert (Hfst : fst <$> rotatePiece s =
                 (fun y => y - math_min (snd <$> s)) <$> (snd <$> s)).
  { rewrite rotatePiece_formula, <- !list_fmap_compose. done. }
  assert (Hsnd : snd <$> rotatePiece s =
                 (fun x => math_max (fst <$> s) - x) <$> (fst <$> s)).
  { rewrite rotatePiece_formula, <- !list_fmap_compose. done. }
  rewrite (flipPiece_formula (rotatePiece s)), Hfst, Hsnd.
  rewrite math_max_sub, math_min_sub_from by (by destruct s).
  rewrite (rotatePiece_formula s), <- list_fmap_compose.
  apply list_fmap_ext. intros i [x y] _. cbn [compose fst snd]. f_equal; lia.
Qed.

Lemma rotate_twice_after_flip (s : Shape) :
  s ≠ [] →
  rotatePiece (rotatePiece (flipPiece s)) =
  (fun c : Cell => (c.1 - math_min (fst <$> s), math_max (snd <$> s) - c.2))
    <$> s.
Proof.
  intros Hne.
  assert (Hf : flipPiece s ≠ []) by (by rewrite flipPiece_nil_iff).
  assert (Hfst : fst <$> flipPiece s =
                 (fun x => math_max (fst <$> s) - x) <$> (fst <$> s)).
  { rewrite flipPiece_formula, <- !list_fmap_compose. done. }
  assert (Hsnd : snd <$> flipPiece s =
                 (fun y => y - math_min (snd <$> s)) <$> (snd <$> s)).
  { rewrite flipPiece_formula, <- !list_fmap_compose. done. }
  rewrite (rotatePiece_twice _ Hf), Hfst, Hsnd.
  rewrite math_max_sub_from, math_max_sub by (by destruct s).
  rewrite (flipPiece_formula s), <- list_fmap_compose.
  apply list_fmap_ext. intros i [x y] _. cbn [compose fst snd]. f_equal; lia.
Qed.

Lemma rotate_thrice_after_flip (s : Shape) :
  s ≠ [] →
  rotatePiece (rotatePiece (rotatePiece (flipPiece s))) =
  (fun c : Cell => (math_max (snd <$> s) - c.2, math_max (fst <$> s) - c.1))
    <$> s.
Proof.
  intros Hne.
  assert (Hfst : fst <$> rotatePiece (rotatePiece (flipPiece s)) =
                 (fun x => x - math_min (fst <$> s)) <$> (fst <$> s)).
  { rewrite rotate_twice_after_flip, <- !list_fmap_compose by done. done. }
  assert (Hsnd : snd <$> rotatePiece (rotatePiece (flipPiece s)) =
                 (fun y => math_max (snd <$> s) - y) <$> (snd <$> s)).
  { rewrite rotate_twice_after_flip, <- !list_fmap_compose by done. done. }
  rewrite (rotatePiece_formula (rotatePiece (rotatePiece (flipPiece s)))).
  rewrite Hfst, Hsnd.
  rewrite math_max_sub, math_min_sub_from by (by destruct s).
  rewrite (rotate_twice_after_flip s Hne), <- list_fmap_compose.
  apply list_fmap_ext. intros i [x y] _. cbn [compose fst snd].
  unfold math_max. f_equal; lia.
Qed.

(** X5.  For every shape, flipping after one quarter turn gives the same
    shape as three quarter turns after flipping. *)
Theorem flip_after_rotate_is_three_rotations_after_flip (s : Shape) :
  flipPiece (rotatePiece s) =
  rotatePiece (rotatePiece (rotatePiece (flipPiece s))).
Proof.
  destruct (decide (s = [])) as [->|Hne]; [done|].
  by rewrite flip_after_rotate, rotate_thrice_after_flip.
Qed.

(** ** The queries do not throw on a square grid *)

Lemma cellsFree_Ret (b : Board.t) (cells : list Cell) :
  squareGrid b → ∃ v, cellsFree b cells = Ret v.
Proof.
  intros Hsq. induction cells as [|[r c] rest IH]; cbn [cellsFree]; [eauto|].
  unfold isCellEmpty.
  destruct (isValidPosition r c b) eqn:Hv; cbn [negb]; [|eauto].
  apply isValidPosition_onBoard in Hv.
  rewrite (readCell_onBoard _ _ _ Hsq Hv). cbn [mbind outcome_bind].
  destruct (strictEq _ 0); cbn [negb]; eauto.
Qed.

Lemma isValidPlacement_Ret (b : Board.t) (shape : Shape) (row col pid : Z) :
  squareGrid b → is_Some (findPlayer b pid) →
  ∃ v, isValidPlacement b shape row col pid = Ret v.
Proof.
  intros Hsq [player Hf].
  destruct (decide (placedCount player = 0%nat)) as [H0|Hn].
  - rewrite (isValidPlacement_first _ _ _ _ _ _ Hf H0). eauto.
  - rewrite (isValidPlacement_later _ Hsq _ _ _ _ _ Hf Hn). eauto.
Qed.

Lemma canPlacePiece_Ret (b : Board.t) (piece : Piece.t) (row col pid : Z) :
  squareGrid b → ∃ v, canPlacePiece b piece row col pid = Ret v.
Proof.
  intros Hsq. unfold canPlacePiece.
  destruct (Piece.used piece); [eauto|]. cbv zeta.
  destruct (findPlayer b pid) as [player|] eqn:Hf; [|eauto].
  destruct (cellsFree_Ret b (absCells (getTransformedShape piece) row col) Hsq)
    as [[|] ->]; cbn [mbind outcome_bind]; [|eauto].
  apply isValidPlacement_Ret; [done|]. by rewrite Hf.
Qed.

Lemma anyM_spec {A : Type} (f : A → outcome bool) (xs : list A) :
  (∀ x, x ∈ xs → ∃ v, f x = Ret v) →
  ∃ v, anyM f xs = Ret v ∧ (v = true ↔ ∃ x, x ∈ xs ∧ f x = Ret true).
Proof.
  induction xs as [|y ys IH]; intros Hret; cbn [anyM].
  - exists false. split; [done|]. split; [done|].
    by intros (x & ?%elem_of_nil & _).
  - destruct (Hret y (list_elem_of_here _ _)) as [[|] Hy]; rewrite Hy;
      cbn [mbind outcome_bind].
    + exists true. split; [done|]. split; [|done]. intros _.
      exists y. split; [apply list_elem_of_here|done].
    + destruct IH as (v & -> & Hv).
      { intros x Hx. apply Hret. by apply list_elem_of_further. }
      exists v. split; [done|]. rewrite Hv. split.
      * intros (x & Hx & Hfx). exists x.
        split; [by apply list_elem_of_further|done].
      * intros (x & Hx & Hfx). apply elem_of_cons in Hx as [->|Hx].
        -- congruence.
        -- by exists x.
Qed.

Lemma canPlayerMove_Ret (b : Board.t) (pid : Z) :
  squareGrid b → ∃ v, canPlayerMove b pid = Ret v.
Proof.
  intros Hsq. unfold canPlayerMove.
  destruct (findPlayer b pid); [|eauto]. cbv zeta.
  edestruct (anyM_spec (A := Piece.t)) as (v & Hv & _); [|eauto].
  intros piece _. edestruct (anyM_spec (A := Z)) as (v & Hv & _); [|eauto].
  intros rot _. edestruct (anyM_spec (A := bool)) as (v & Hv & _); [|eauto].
  intros fl _. edestruct (anyM_spec (A := Z)) as (v & Hv & _); [|eauto].
  intros row _. edestruct (anyM_spec (A := Z)) as (v & Hv & _); [|eauto].
  intros col _. by apply canPlacePiece_Ret.
Qed.

Lemma isGameOver_Ret (b : Board.t) :
  squareGrid b → ∃ v, isGameOver b = Ret v.
Proof.
  intros Hsq. unfold isGameOver. case_decide; [eauto|].
  edestruct (anyM_spec (A := Player.t)) as (v & Hv & _);
    [|rewrite Hv; cbn [mbind outcome_bind]; eauto].
  intros player _. by apply canPlayerMove_Ret.
Qed.

Lemma getWinner_Ret (b : Board.t) :
  squareGrid b → ∃ w, getWinner b = Ret w.
Proof.
  intros Hsq. unfold getWinner.
  destruct (isGameOver_Ret b Hsq) as [[|] ->]; cbn [mbind outcome_bind negb];
    eauto.
Qed.

(** X6.  On a board whose grid is [size] by [size] none of the queries
    throws, whatever piece, position and player id they are asked about:
    [canPlacePiece], [canPlayerMove] and [isGameOver] return a boolean,
    [getWinner] returns a list or null, [getGameState] returns a summary;
    and the only exception [placePiece] can raise is the illegal-move
    error. *)
Theorem queries_do_not_throw_on_square_grid (now : Z) (b : Board.t)
  (piece : Piece.t) (row col pid : Z) :
  squareGrid b →
  (∃ v, canPlacePiece b piece row col pid = Ret v) ∧
  (∃ v, canPlayerMove b pid = Ret v) ∧
  (∃ v, isGameOver b = Ret v) ∧
  (∃ w, getWinner b = Ret w) ∧
  (∃ g, getGameState b = Ret g) ∧
  (∀ e, placePiece now b piece row col pid = Throw e → e = IllegalMove).
Proof.
  intros Hsq.
  split; [by apply canPlacePiece_Ret|].
  split; [by apply canPlayerMove_Ret|].
  split; [by apply isGameOver_Ret|].
  split; [by apply getWinner_Ret|]. split.
  - unfold getGameState. cbv zeta.
    destruct (isGameOver_Ret b Hsq) as [v ->].
    destruct (getWinner_Ret b Hsq) as [w ->]. cbn [mbind outcome_bind]. eauto.
  - intros e He.
    destruct (placePiece_cases now b piece row col pid)
      as [[_ [b' Hp]]|[[_ Hp]|[Hc _]]].
    + congruence.
    + congruence.
    + destruct (canPlacePiece_Ret b piece row col pid Hsq). congruence.
Qed.

Lemma squareGrid_startedBoard : squareGrid startedBoard.
Proof. split; [reflexivity|]. repeat constructor. Defined.

Lemma queries_do_not_throw_witness :
  ∃ v, canPlacePiece startedBoard pieceI1 (-3) 25 7 = Ret v.
Proof.
  apply (queries_do_not_throw_on_square_grid 0 startedBoard pieceI1 (-3) 25 7).
  exact squareGrid_startedBoard.
Defined.

(** ** What [canPlacePiece] refuses *)

Lemma absCells_nil_iff (shape : Shape) (row col : Z) :
  absCells shape row col = [] ↔ shape = [].
Proof. unfold absCells. split; [apply fmap_nil_inv|by intros ->]. Qed.

Lemma getTransformedShape_nil_iff (piece : Piece.t) :
  getTransformedShape piece = [] ↔ Piece.shape piece = [].
Proof.
  pose proof (length_getTransformedShape piece) as Hlen.
  split; intros Hnil; rewrite Hnil in Hlen.
  - by destruct (Piece.shape piece).
  - by destruct (getTransformedShape piece).
Qed.

Lemma isValidPlacement_nil (b : Board.t) (row col pid : Z) :
  is_Some (findPlayer b pid) → isValidPlacement b [] row col pid = Ret false.
Proof.
  intros [player Hf]. unfold isValidPlacement. rewrite Hf.
  by destruct (_ =? _)%nat.
Qed.

(** X7.  [canPlacePiece] answers [false], without throwing and on any
    board, for a used piece, for a player id that is not on the board and
    for a piece without cells.  It answers [true] only if the piece is
    unused and has a cell, the player is on the board, and every cell the
    resolved shape covers lies on the board and is empty. *)
Theorem canPlacePiece_refusals (b : Board.t) (piece : Piece.t)
  (row col pid : Z) :
  (Piece.used piece = true → canPlacePiece b piece row col pid = Ret false) ∧
  (findPlayer b pid = None → canPlacePiece b piece row col pid = Ret false) ∧
  (Piece.shape piece = [] → canPlacePiece b piece row col pid = Ret false) ∧
  (canPlacePiece b piece row col pid = Ret true →
   Piece.used piece = false ∧ Piece.shape piece ≠ [] ∧
   is_Some (findPlayer b pid) ∧
   ∀ cell, cell ∈ absCells (getTransformedShape piece) row col →
           onBoard b cell ∧ owner b cell = Some 0).
Proof.
  assert (Hnil : Piece.shape piece = [] →
                 canPlacePiece b piece row col pid = Ret false).
  { intros Hs. unfold canPlacePiece. destruct (Piece.used piece); [done|].
    cbv zeta. destruct (findPlayer b pid) eqn:Hf; [|done].
    apply getTransformedShape_nil_iff in Hs. rewrite Hs. cbn.
    apply isValidPlacement_nil. by rewrite Hf. }
  split; [intros Hu; unfold canPlacePiece; by rewrite Hu|].
  split.
  { intros Hf. unfold canPlacePiece. rewrite Hf. by destruct (Piece.used piece). }
  split; [done|].
  intros Hcan. pose proof (stamp_checked _ _ _ _ _ Hcan) as Hfree.
  destruct (canPlacePiece_true _ _ _ _ _ Hcan) as (Hu & Hf & _).
  split; [done|]. split; [|split; [done|]].
  - intros Hs. rewrite (Hnil Hs) in Hcan. discriminate.
  - intros cell Hin. by eapply Forall_forall in Hfree.
Qed.

(** ** A placement only adds *)

Lemma store_row_lengths (g : list (list Z)) (r : Z) (rowArr : list Z)
  (c v : Z) :
  index g r = Some rowArr →
  length <$> store g r (store rowArr c v) = length <$> g.
Proof.
  intros Hr. unfold store at 1. case_decide; [|done].
  rewrite list_fmap_insert, length_store. apply list_insert_id.
  apply index_Some in Hr as [_ Hr]. by rewrite list_lookup_fmap, Hr.
Qed.

Lemma stamp_row_lengths (cells : list Cell) (v : Z) (g g' : list (list Z)) :
  stamp g cells v = Ret g' → length <$> g' = length <$> g.
Proof.
  revert g. induction cells as [|[r c] rest IH]; intros g; cbn [stamp].
  - by intros [= ->].
  - unfold writeCell. destruct (index g r) as [rowArr|] eqn:Hr; [|done].
    cbn [mbind outcome_bind]. intros Hst. rewrite (IH _ Hst).
    by apply store_row_lengths.
Qed.

Lemma squareGrid_row_lengths (b1 b2 : Board.t) :
  length <$> Board.grid b2 = length <$> Board.grid b1 →
  Board.size b2 = Board.size b1 →
  squareGrid b1 → squareGrid b2.
Proof.
  intros Hlen Hsize [H1 H2]. unfold squareGrid. rewrite Hsize. split.
  - rewrite <- H1. f_equal.
    by rewrite <- (length_fmap length (Board.grid b2)), Hlen, length_fmap.
  - apply Forall_forall. intros r Hr.
    assert (length r ∈ length <$> Board.grid b1) as Hin.
    { rewrite <- Hlen. by apply list_elem_of_fmap_2. }
    apply list_elem_of_fmap in Hin as (r' & -> & Hr').
    by eapply Forall_forall in H2.
Qed.

Lemma placePiece_Ret_inv (now : Z) (b b' : Board.t) (piece : Piece.t)
  (row col pid : Z) :
  placePiece now b piece row col pid = Ret b' →
  canPlacePiece b piece row col pid = Ret true ∧
  stamp (Board.grid b) (absCells (getTransformedShape piece) row col) pid =
    Ret (Board.grid b') ∧
  (∀ cell, owner b' cell =
           if decide (cell ∈ absCells (getTransformedShape piece) row col)
           then Some pid else owner b cell) ∧
  Board.size b' = Board.size b ∧
  Board.players b' =
    updatePlayer piece (getTransformedShape piece) pid <$> Board.players b ∧
  Board.currentPlayer b' = getNextPlayer b pid ∧
  Board.status b' = Board.status b ∧
  Board.moveHistory b' =
    Board.moveHistory b ++
      [Move.mk pid (Piece.id piece) (row, col) (getTransformedShape piece) now] ∧
  Board.lastMove b' =
    Some (Move.mk pid (Piece.id piece) (row, col)
                  (getTransformedShape piece) now).
Proof.
  intros Hp.
  assert (Hcan : canPlacePiece b piece row col pid = Ret true).
  { apply (placePiece_Ret_iff now). eauto. }
  destruct (placePiece_success now _ _ _ _ _ Hcan) as (g' & Hst & Hown & Hp').
  rewrite Hp in Hp'. injection Hp' as ->. done.
Qed.

(** X8.  A successful [placePiece] never touches an occupied cell: a cell
    whose owner differs between the argument board and the returned one
    is a cell of the resolved shape, was empty, and now holds the player
    id; every cell that held a player id still holds the same one.  The
    grid keeps its dimensions, so a [size] by [size] grid stays one. *)
Theorem placePiece_never_overwrites (now : Z) (b b' : Board.t)
  (piece : Piece.t) (row col pid : Z) :
  placePiece now b piece row col pid = Ret b' →
  (∀ cell, owner b' cell ≠ owner b cell →
           cell ∈ absCells (getTransformedShape piece) row col ∧
           owner b cell = Some 0 ∧ owner b' cell = Some pid) ∧
  (∀ cell v, owner b cell = Some v → v ≠ 0 → owner b' cell = Some v) ∧
  (∀ cell, is_Some (owner b' cell) ↔ is_Some (owner b cell)) ∧
  length <$> Board.grid b' = length <$> Board.grid b ∧
  (squareGrid b → squareGrid b').
Proof.
  intros Hp.
  destruct (placePiece_Ret_inv _ _ _ _ _ _ _ Hp)
    as (Hcan & Hst & Hown & Hsize & _).
  pose proof (stamp_checked _ _ _ _ _ Hcan) as Hfree.
  rewrite Forall_forall in Hfree.
  pose proof (stamp_row_lengths _ _ _ _ Hst) as Hlen.
  split; [|split; [|split; [|split; [done|]]]].
  - intros cell Hne. rewrite Hown in Hne |- *.
    destruct (decide _) as [Hin|Hnin]; [|done].
    split; [done|]. split; [|done]. by apply Hfree.
  - intros cell v Hv Hv0. rewrite Hown.
    destruct (decide _) as [Hin|Hnin]; [|done].
    destruct (Hfree _ Hin) as [_ H0]. congruence.
  - intros cell. rewrite Hown.
    destruct (decide _) as [Hin|Hnin]; [|done].
    destruct (Hfree _ Hin) as [_ ->]. split; eauto.
  - by apply squareGrid_row_lengths.
Qed.

Lemma placePiece_never_overwrites_witness :
  length <$> Board.grid afterFirstMove = length <$> Board.grid startedBoard.
Proof.
  apply (placePiece_never_overwrites 0 startedBoard afterFirstMove
           pieceI1 0 0 1).
  vm_compute. reflexivity.
Defined.

(** X9.  The bookkeeping of a successful [placePiece] only adds as well:
    the old move history is a prefix of the new one, which is one move
    longer; the players are the same in number, order, id and colour; no
    score goes down; every piece set keeps its pieces' ids, shapes,
    rotation and flip state; and a piece that was used is still used. *)
Theorem placePiece_bookkeeping_only_grows (now : Z) (b b' : Board.t)
  (piece : Piece.t) (row col pid : Z) :
  placePiece now b piece row col pid = Ret b' →
  Board.moveHistory b `prefix_of` Board.moveHistory b' ∧
  length (Board.moveHistory b') = S (length (Board.moveHistory b)) ∧
  Forall2 (fun pl pl' : Player.t =>
             Player.id pl' = Player.id pl ∧
             Player.color pl' = Player.color pl ∧
             Player.score pl <= Player.score pl' ∧
             Forall2 (fun q q' : Piece.t =>
                        Piece.id q' = Piece.id q ∧
                        Piece.shape q' = Piece.shape q ∧
                        Piece.rotation q' = Piece.rotation q ∧
                        Piece.flipped q' = Piece.flipped q ∧
                        (Piece.used q = true → Piece.used q' = true))
                     (Player.pieces pl) (Player.pieces pl'))
          (Board.players b) (Board.players b').
Proof.
  intros Hp.
  destruct (placePiece_Ret_inv _ _ _ _ _ _ _ Hp)
    as (_ & _ & _ & _ & Hpl & _ & _ & Hh & _).
  rewrite Hh, Hpl. split; [by apply prefix_app_r|].
  split; [rewrite length_app; simpl; lia|].
  apply Forall2_fmap_r, Forall_Forall2_diag, Forall_forall. intros pl _.
  cbn [compose].
  split; [apply updatePlayer_id|].
  assert (Hsame : Forall2 (fun q q' : Piece.t =>
                     Piece.id q' = Piece.id q ∧
                     Piece.shape q' = Piece.shape q ∧
                     Piece.rotation q' = Piece.rotation q ∧
                     Piece.flipped q' = Piece.flipped q ∧
                     (Piece.used q = true → Piece.used q' = true))
                    (Player.pieces pl) (Player.pieces pl)).
  { apply Forall_Forall2_diag, Forall_forall. by intros q _. }
  unfold updatePlayer. destruct (Player.id pl =? pid); [|by repeat split; try lia].
  cbn [Player.color Player.score Player.pieces].
  split; [done|]. split; [lia|].
  apply Forall2_fmap_r, Forall_Forall2_diag, Forall_forall. intros q _.
  cbn [compose]. destruct (markUsed_fields piece q) as (-> & -> & -> & -> & ->).
  repeat split. intros ->. by case_decide.
Qed.

Lemma placePiece_bookkeeping_witness :
  length (Board.moveHistory afterFirstMove) =
  S (length (Board.moveHistory startedBoard)).
Proof.
  apply (placePiece_bookkeeping_only_grows 0 startedBoard afterFirstMove
           pieceI1 0 0 1).
  vm_compute. reflexivity.
Defined.

(** ** What holds on every reachable board *)

Lemma startGame_lastMove (b b' : Board.t) (n : Z) :
  startGame (Some b) n = Ret b' → Board.lastMove b' = Board.lastMove b.
Proof.
  unfold startGame. destruct (_ || _); [done|]. by intros [= <-].
Qed.

Lemma elem_of_take_1234 (k : nat) (x : Z) :
  x ∈ take k [1; 2; 3; 4] → 1 <= x <= 4.
Proof.
  intros Hin. eapply elem_of_sublist in Hin; [|apply sublist_take].
  repeat (apply elem_of_cons in Hin as [->|Hin]; [lia|]).
  by apply elem_of_nil in Hin.
Qed.

Lemma reachable_invariant (b : Board.t) :
  reachable b →
  Board.size b = 20 ∧ squareGrid b ∧
  (∃ k : nat, (2 <= k <= 4)%nat ∧
              Player.id <$> Board.players b = take k [1; 2; 3; 4]) ∧
  (∀ cell v, owner b cell = Some v → 0 <= v <= 4) ∧
  Forall (fun pl : Player.t =>
            (fun q : Piece.t => (Piece.id q, Piece.shape q)) <$>
              Player.pieces pl = PIECE_SHAPES)
         (Board.players b) ∧
  (∃ c, Board.currentPlayer b = Some c ∧
        c ∈ Player.id <$> Board.players b) ∧
  Board.lastMove b = last (Board.moveHistory b).
Proof.
  induction 1 as [|b n b' _ IH Hs|b now piece row col pid b' _ IH Hp].
  - split; [done|]. split; [split; [done|repeat constructor]|].
    split; [exists 4%nat; split; [lia|done]|].
    split.
    { intros cell v Hv.
      assert (v = 0); [|lia].
      unfold owner, ownerIn, createBoard in Hv. cbn [Board.grid] in Hv.
      destruct (index _ cell.1) as [r|] eqn:Hr; [|done].
      apply index_Some in Hr as [_ Hr]. apply index_Some in Hv as [_ Hv].
      apply lookup_replicate in Hr as [-> _].
      by apply lookup_replicate in Hv as [-> _]. }
    split; [by repeat constructor|].
    split; [|done]. exists 1. split; [done|]. apply list_elem_of_here.
  - destruct IH as (Hsize & Hsq & (k & Hk & Hids) & Hcells & Hpieces & _ & Hlast).
    pose proof (startGame_lastMove _ _ _ Hs) as Hlm.
    apply startGame_Ret in Hs as (Hn & Hg & Hsz & Hpl & Hcp & _ & Hh).
    assert (Hids' : Player.id <$> Board.players b' =
                    take (min (Z.to_nat n) k) [1; 2; 3; 4]).
    { by rewrite Hpl, fmap_take, Hids, take_take. }
    split; [congruence|].
    split; [eapply squareGrid_row_lengths; [by rewrite Hg|done|done]|].
    split; [exists (min (Z.to_nat n) k); split; [lia|done]|].
    split; [intros cell v; unfold owner; rewrite Hg; apply Hcells|].
    split; [rewrite Hpl; by apply Forall_take|].
    split; [|congruence].
    exists 1. split; [done|]. rewrite Hids'.
    destruct (min (Z.to_nat n) k) as [|m] eqn:Hm; [lia|]. apply list_elem_of_here.
  - destruct IH as (Hsize & Hsq & (k & Hk & Hids) & Hcells & Hpieces & _ & _).
    destruct (placePiece_Ret_inv _ _ _ _ _ _ _ Hp)
      as (Hcan & Hst & Hown & Hsz & Hpl & Hcp & _ & Hh & Hlm).
    destruct (canPlacePiece_true _ _ _ _ _ Hcan) as (_ & Hfind & _).
    assert (Hids' : Player.id <$> Board.players b' =
                    Player.id <$> Board.players b).
    { rewrite Hpl. apply updatePlayer_ids. }
    split; [congruence|].
    split.
    { eapply squareGrid_row_lengths; [|done|done].
      by apply stamp_row_lengths in Hst. }
    split; [exists k; by rewrite Hids'|].
    split.
    { intros cell v. rewrite Hown. destruct (decide _); [|apply Hcells].
      intros [= <-]. destruct Hfind as [player Hf].
      apply findPlayer_Some in Hf as [Hin <-].
      assert (1 <= Player.id player <= 4); [|lia].
      apply (elem_of_take_1234 k). rewrite <- Hids.
      by apply list_elem_of_fmap_2. }
    split.
    { rewrite Hpl. apply Forall_fmap, Forall_forall. intros pl Hin.
      eapply Forall_forall in Hpieces; [|exact Hin]. cbn [compose].
      rewrite <- Hpieces. unfold updatePlayer.
      destruct (Player.id pl =? pid); [|done]. cbn [Player.pieces].
      rewrite <- list_fmap_compose. apply list_fmap_ext. intros i q _.
      cbn [compose].
      by destruct (markUsed_fields piece q) as (-> & -> & _). }
    split; [|by rewrite Hlm, Hh, last_snoc].
    rewrite Hcp, Hids'.
    destruct (getNextPlayer_successor b pid Hfind) as (i & Hi & _ & ->).
    apply lookup_lt_Some in Hi.
    destruct (lookup_lt_is_Some_2 (Player.id <$> Board.players b)
                ((i + 1) `mod` length (Player.id <$> Board.players b))%nat)
      as [c Hc].
    { apply Nat.mod_upper_bound. lia. }
    exists c. split; [done|]. by eapply list_elem_of_lookup_2.
Qed.

Lemma reachable_afterFirstMove : reachable afterFirstMove.
Proof.
  apply (reach_place startedBoard 0 pieceI1 0 0 1); [|vm_compute; reflexivity].
  apply (reach_start createBoard 4); [|vm_compute; reflexivity].
  apply reach_create.
Defined.

(** X10.  On every board reached from [createBoard] by [startGame] and
    successful [placePiece] calls, [size] is 20, the grid has 20 rows of
    20 cells, and every cell holds 0 or one of the ids 1 to 4. *)
Theorem reachable_grid_is_20_by_20_with_owners_0_to_4 (b : Board.t) :
  reachable b →
  Board.size b = 20 ∧
  length (Board.grid b) = 20%nat ∧
  Forall (fun r : list Z => length r = 20%nat) (Board.grid b) ∧
  (∀ cell, onBoard b cell ↔ is_Some (owner b cell)) ∧
  (∀ cell v, owner b cell = Some v → v = 0 ∨ 1 <= v <= 4).
Proof.
  intros Hr.
  destruct (reachable_invariant b Hr) as (Hsize & Hsq & _ & Hcells & _).
  split; [done|]. pose proof Hsq as [Hlen Hrows].
  split; [lia|]. split.
  - eapply Forall_impl; [exact Hrows|]. intros r Hlr. cbn beta in Hlr. lia.
  - split.
    + intros cell. symmetry. by apply owner_onBoard.
    + intros cell v Hv. specialize (Hcells _ _ Hv). lia.
Qed.

Lemma reachable_grid_witness : Board.size afterFirstMove = 20.
Proof.
  apply (reachable_grid_is_20_by_20_with_owners_0_to_4 afterFirstMove).
  exact reachable_afterFirstMove.
Defined.

(** X11.  On every reachable board the players are, in order, those with
    ids 1 to [k] for some [k] from 2 to 4; each of them holds the 21
    pieces of the catalog, with the catalog's ids and base shapes in the
    catalog's order; [currentPlayer] is the id of one of the players; the
    status is not finished; and [lastMove] is the last entry of the move
    history (null when there is none). *)
Theorem reachable_players_pieces_and_turn (b : Board.t) :
  reachable b →
  (∃ k : Z, 2 <= k <= 4 ∧
            Player.id <$> Board.players b = seqZ 1 k ∧
            ∃ c, Board.currentPlayer b = Some c ∧ 1 <= c <= k) ∧
  Forall (fun pl : Player.t =>
            length (Player.pieces pl) = 21%nat ∧
            (fun q : Piece.t => (Piece.id q, Piece.shape q)) <$>
              Player.pieces pl = PIECE_SHAPES)
         (Board.players b) ∧
  Board.status b ≠ FINISHED ∧
  Board.lastMove b = last (Board.moveHistory b).
Proof.
  intros Hr.
  destruct (reachable_invariant b Hr)
    as (_ & _ & (k & Hk & Hids) & _ & Hpieces & (c & Hc & Hin) & Hlast).
  split; [|split; [|split; [by apply reachable_not_finished|done]]].
  - exists (Z.of_nat k). split; [lia|]. rewrite Hids in Hin |- *.
    assert (k = 2 ∨ k = 3 ∨ k = 4)%nat as [-> | [-> | ->]] by lia;
      (split; [reflexivity|]); exists c; (split; [done|]);
      cbn in Hin;
      repeat (apply elem_of_cons in Hin as [->|Hin]; [lia|]);
      by apply elem_of_nil in Hin.
  - eapply Forall_impl; [exact Hpieces|]. intros pl Hpl. cbn beta in Hpl.
    split; [|done].
    by rewrite <- (length_fmap (fun q => (Piece.id q, Piece.shape q))), Hpl.
Qed.

Lemma reachable_players_witness :
  Board.lastMove afterFirstMove = last (Board.moveHistory afterFirstMove).
Proof.
  apply (reachable_players_pieces_and_turn afterFirstMove).
  exact reachable_afterFirstMove.
Defined.

(** ** Round robin *)

Lemma indexOf_absent (xs : list Z) (x : Z) : x ∉ xs → indexOf xs x = -1.
Proof.
  intros Hnin. unfold indexOf.
  destruct (list_find _ xs) as [[i y]|] eqn:Hf; [|done].
  apply list_find_Some in Hf as (Hi & -> & _).
  exfalso. apply Hnin. by eapply list_elem_of_lookup_2.
Qed.

Lemma getNextPlayer_NoDup (b : Board.t) (i : nat) (pid : Z) :
  NoDup (Player.id <$> Board.players b) →
  (Player.id <$> Board.players b) !! i = Some pid →
  getNextPlayer b pid =
  (Player.id <$> Board.players b) !!
    ((i + 1) `mod` length (Board.players b))%nat.
Proof.
  intros Hnd Hi.
  assert (Hfind : is_Some (findPlayer b pid)).
  { unfold findPlayer. rewrite list_lookup_fmap in Hi.
    destruct (Board.players b !! i) as [pl|] eqn:Hpl; [|done].
    injection Hi as <-.
    destruct (List.find _ (Board.players b)) eqn:Hf; [eauto|].
    eapply find_none in Hf; [|apply list_elem_of_In; by eapply list_elem_of_lookup_2].
    cbn beta in Hf. lia. }
  destruct (getNextPlayer_successor b pid Hfind) as (j & Hj & _ & ->).
  rewrite length_fmap. by rewrite (NoDup_lookup _ _ _ _ Hnd Hj Hi).
Qed.

(** X12.  [getNextPlayer] is a round robin over the player ids.  Asked
    about an id that no player has, it answers with the first player's id
    (undefined when there are no players).  When the ids are pairwise
    different, the id at position [i] is followed by the id at position
    [i + 1], the last by the first, and following the order once round,
    as many steps as there are players, leads back to the id one started
    from. *)
Theorem getNextPlayer_round_robin (b : Board.t) :
  (∀ pid, pid ∉ Player.id <$> Board.players b →
          getNextPlayer b pid = head (Player.id <$> Board.players b)) ∧
  (NoDup (Player.id <$> Board.players b) →
   ∀ (i : nat) (pid : Z),
     (Player.id <$> Board.players b) !! i = Some pid →
     getNextPlayer b pid =
       (Player.id <$> Board.players b) !!
         ((i + 1) `mod` length (Board.players b))%nat ∧
     Nat.iter (length (Board.players b))
              (fun o : option Z => o ≫= getNextPlayer b) (Some pid) =
       Some pid).
Proof.
  split.
  - intros pid Hnin. unfold getNextPlayer. rewrite (indexOf_absent _ _ Hnin).
    case_decide as Hlen.
    + by destruct (Player.id <$> Board.players b).
    + destruct (Player.id <$> Board.players b) as [|x xs] eqn:Hids; [done|].
      cbn [length]. by rewrite Z.rem_0_l by lia.
  - intros Hnd i pid Hi. split; [by apply getNextPlayer_NoDup|].
    set (ids := Player.id <$> Board.players b) in *.
    set (n := length (Board.players b)).
    assert (Hn : (i < n)%nat).
    { apply lookup_lt_Some in Hi. unfold ids in Hi.
      by rewrite length_fmap in Hi. }
    assert (Hstep : ∀ m, Nat.iter m (fun o : option Z => o ≫= getNextPlayer b)
                           (Some pid) = ids !! ((i + m) `mod` n)%nat).
    { induction m as [|m IH].
      - cbn [Nat.iter nat_rect]. rewrite Nat.add_0_r, Nat.mod_small by done.
        by rewrite Hi.
      - rewrite Nat.iter_succ, IH.
        destruct (lookup_lt_is_Some_2 ids ((i + m) `mod` n)%nat) as [p Hp].
        { unfold ids. rewrite length_fmap. apply Nat.mod_upper_bound. lia. }
        rewrite Hp. cbn [mbind option_bind].
        rewrite (getNextPlayer_NoDup b _ p Hnd Hp). fold n. fold ids.
        f_equal. rewrite Nat.Div0.add_mod_idemp_l. f_equal. lia. }
    rewrite Hstep.
    replace (i + n)%nat with (i + 1 * n)%nat by lia.
    rewrite Nat.Div0.mod_add, Nat.mod_small by done. done.
Qed.

(** ** The move search *)

Lemma anyM_true {A : Type} (f : A → outcome bool) (xs : list A) :
  anyM f xs = Ret true → ∃ x, x ∈ xs ∧ f x = Ret true.
Proof.
  induction xs as [|y ys IH]; cbn [anyM]; [done|].
  destruct (f y) as [[|]|e] eqn:Hy; cbn [mbind outcome_bind]; [| |done].
  - intros _. exists y. split; [apply list_elem_of_here|done].
  - intros Hany. destruct (IH Hany) as (x & Hx & Hfx).
    exists x. split; [by apply list_elem_of_further|done].
Qed.

Lemma canPlayerMove_search (b : Board.t) (pid : Z) (player : Player.t) :
  squareGrid b →
  findPlayer b pid = Some player →
  ∃ v, canPlayerMove b pid = Ret v ∧
       (v = true ↔
        ∃ (q : Piece.t) (rotation : Z) (flipped : bool) (row col : Z),
          q ∈ Player.pieces player ∧ Piece.used q = false ∧
          0 <= rotation < 4 ∧
          0 <= row < Board.size b ∧ 0 <= col < Board.size b ∧
          canPlacePiece b (Piece.mk (Piece.id q) (Piece.shape q)
                                    (Piece.used q) rotation flipped)
                        row col pid = Ret true).
Proof.
  intros Hsq Hfind.
  destruct (canPlayerMove_Ret b pid Hsq) as [v Hv]. exists v.
  split; [exact Hv|]. split.
  - intros ->. unfold canPlayerMove in Hv. rewrite Hfind in Hv.
    cbv zeta in Hv.
    apply anyM_true in Hv as (q & Hq & Hv).
    apply anyM_true in Hv as (rot & Hrot & Hv).
    apply anyM_true in Hv as (fl & _ & Hv).
    apply anyM_true in Hv as (row & Hrow & Hv).
    apply anyM_true in Hv as (col & Hcol & Hv).
    apply list_elem_of_In, filter_In in Hq as [Hq Hu].
    apply negb_true_iff in Hu. apply list_elem_of_In in Hq.
    apply elem_of_seqZ in Hrow, Hcol.
    assert (0 <= rot < 4).
    { repeat (apply elem_of_cons in Hrot as [->|Hrot]; [lia|]).
      by apply elem_of_nil in Hrot. }
    exists q, rot, fl, row, col. repeat split; try done; lia.
  - intros (q & rot & fl & row & col & Hq & Hu & Hrot & Hrow & Hcol & Hcan).
    destruct v; [done|].
    rewrite (canPlayerMove_false b pid player q rot fl row col) in Hcan; done.
Qed.

(** X13.  On a square grid [canPlayerMove] is an exact search.  For a player
    of the board it returns [true] if and only if some unused piece of
    the player's set, in one of the rotation counts 0 to 3, flipped or
    not, can be placed (by [canPlacePiece]) at some position with row and
    column from 0 to [size - 1].  For an id that no player has it returns
    [false]. *)
Theorem canPlayerMove_iff_some_placement (b : Board.t) (pid : Z) :
  squareGrid b →
  (findPlayer b pid = None → canPlayerMove b pid = Ret false) ∧
  (∀ player, findPlayer b pid = Some player →
     ∃ v, canPlayerMove b pid = Ret v ∧
          (v = true ↔
           ∃ (q : Piece.t) (rotation : Z) (flipped : bool) (row col : Z),
             q ∈ Player.pieces player ∧ Piece.used q = false ∧
             0 <= rotation < 4 ∧
             0 <= row < Board.size b ∧ 0 <= col < Board.size b ∧
             canPlacePiece b (Piece.mk (Piece.id q) (Piece.shape q)
                                       (Piece.used q) rotation flipped)
                           row col pid = Ret true)).
Proof.
  intros Hsq. split.
  - intros Hf. unfold canPlayerMove. by rewrite Hf.
  - intros player Hf. by apply canPlayerMove_search.
Qed.

Lemma canPlayerMove_witness : canPlayerMove startedBoard 7 = Ret false.
Proof.
  apply (canPlayerMove_iff_some_placement startedBoard 7).
  - exact squareGrid_startedBoard.
  - vm_compute. reflexivity.
Defined.

(** X14.  [isGameOver] goes by the status first: [false] on a waiting
    board and [true] on a finished one, whatever the grid and the pieces
    are.  On a game in progress on a square grid it returns [true] if and
    only if [canPlayerMove] is [false] for every player of the board. *)
Theorem isGameOver_by_status_then_by_moves (b : Board.t) :
  (Board.status b = WAITING → isGameOver b = Ret false) ∧
  (Board.status b = FINISHED → isGameOver b = Ret true) ∧
  (Board.status b = IN_PROGRESS → squareGrid b →
   ∃ v, isGameOver b = Ret v ∧
        (v = true ↔
         ∀ player, player ∈ Board.players b →
                   canPlayerMove b (Player.id player) = Ret false)).
Proof.
  split; [apply isGameOver_waiting|]. split; [apply isGameOver_finished|].
  intros Hs Hsq. unfold isGameOver. rewrite Hs.
  rewrite decide_False by (by intros ?).
  destruct (anyM_spec (fun player => canPlayerMove b (Player.id player))
              (Board.players b)) as (v & -> & Hv).
  { intros player _. by apply canPlayerMove_Ret. }
  cbn [mbind outcome_bind]. exists (negb v). split; [done|].
  rewrite negb_true_iff. split.
  - intros -> player Hin.
    destruct (canPlayerMove_Ret b (Player.id player) Hsq) as [[|] Hm]; [|done].
    assert (false = true); [|done]. apply Hv. eauto.
  - intros Hall. destruct v; [|done].
    destruct (proj1 Hv eq_refl) as (player & Hin & Hm).
    rewrite (Hall _ Hin) in Hm. discriminate.
Qed.

(** ** Winners *)

Lemma Math_max_spec (xs : list Z) :
  xs ≠ [] →
  ∃ m, Math_max xs = Some m ∧ m ∈ xs ∧ ∀ x, x ∈ xs → x <= m.
Proof.
  destruct xs as [|y rest]; [done|]. intros _. cbn [Math_max].
  exists (foldr Z.max y rest). split; [done|].
  induction rest as [|z rest [IHin IHle]]; cbn [foldr].
  - split; [apply list_elem_of_here|].
    intros x Hx. apply list_elem_of_singleton in Hx as ->. lia.
  - split.
    + destruct (Z.max_spec z (foldr Z.max y rest)) as [[_ ->]|[_ ->]].
      * apply elem_of_cons in IHin as [->|Hin]; [apply list_elem_of_here|].
        by do 2 apply list_elem_of_further.
      * apply list_elem_of_further, list_elem_of_here.
    + intros x Hx. apply elem_of_cons in Hx as [->|Hx].
      * specialize (IHle y (list_elem_of_here _ _)). lia.
      * apply elem_of_cons in Hx as [->|Hx]; [lia|].
        specialize (IHle x (list_elem_of_further _ _ _ Hx)). lia.
Qed.

Lemma winners_spec (players : list Player.t) (p : Player.t) :
  p ∈ List.filter
        (fun p => strictEq (Math_max (Player.score <$> players))
                           (Player.score p)) players ↔
  p ∈ players ∧ ∀ q, q ∈ players → Player.score q <= Player.score p.
Proof.
  rewrite list_elem_of_In, filter_In, <- list_elem_of_In.
  destruct (decide (players = [])) as [->|Hne].
  { split; intros [Hin _]; by apply elem_of_nil in Hin. }
  destruct (Math_max_spec (Player.score <$> players)) as (m & -> & Hm & Hle).
  { by destruct players. }
  cbn [strictEq]. rewrite Z.eqb_eq. split.
  - intros [Hin <-]. split; [done|]. intros q Hq.
    apply Hle. by apply list_elem_of_fmap_2.
  - intros [Hin Hall]. split; [done|].
    apply list_elem_of_fmap in Hm as (q & -> & Hq).
    specialize (Hall _ Hq).
    specialize (Hle _ (list_elem_of_fmap_2 Player.score _ _ Hin)). lia.
Qed.

(** X15.  [getWinner] returns null exactly when [isGameOver] returns
    [false].  When [isGameOver] returns [true] it returns the players
    whose score no other player exceeds, all of them, in the order of
    the player list; with at least one player on the board that list is
    not empty. *)
Theorem getWinner_returns_all_top_scorers (b : Board.t) (over : bool) :
  isGameOver b = Ret over →
  ∃ w, getWinner b = Ret w ∧
       (w = None ↔ over = false) ∧
       ∀ ws, w = Some ws →
         (∀ p, p ∈ ws ↔
               p ∈ Board.players b ∧
               ∀ q, q ∈ Board.players b → Player.score q <= Player.score p) ∧
         ws `sublist_of` Board.players b ∧
         (Board.players b ≠ [] → ws ≠ []).
Proof.
  intros Hover. unfold getWinner. rewrite Hover. cbn [mbind outcome_bind].
  destruct over; cbn [negb].
  - eexists. split; [done|]. split; [done|]. intros ws [= <-].
    split; [apply winners_spec|]. split.
    + induction (Board.players b) as [|p ps IH] in |- * at 2 3;
        [constructor|].
      cbn [List.filter]. destruct (strictEq _ _); by constructor.
    + intros Hne Hnil.
      destruct (Math_max_spec (Player.score <$> Board.players b))
        as (m & Hm & Hin & Hle).
      { by destruct (Board.players b). }
      apply list_elem_of_fmap in Hin as (p & -> & Hp).
      assert (p ∈ List.filter
                (fun p => strictEq (Math_max (Player.score <$> Board.players b))
                                   (Player.score p)) (Board.players b)) as Hw.
      { apply winners_spec. split; [done|]. intros q Hq.
        apply Hle. by apply list_elem_of_fmap_2. }
      rewrite Hnil in Hw. by apply elem_of_nil in Hw.
  - exists None. split; [done|]. split; [done|]. by intros ws.
Qed.

Lemma getWinner_witness :
  ∃ w, getWinner finishedBoard = Ret w ∧ (w = None ↔ true = false).
Proof.
  destruct (getWinner_returns_all_top_scorers finishedBoard true)
    as (w & Hw & Hnull & _).
  - reflexivity.
  - exists w. split; [exact Hw|exact Hnull].
Defined.

(** ** The state summary *)

Lemma filter_used_split (ps : list Piece.t) :
  (length (List.filter (fun q => negb (Piece.used q)) ps) +
   length (List.filter Piece.used ps) = length ps)%nat.
Proof.
  induction ps as [|q ps IH]; [done|]. cbn [List.filter].
  destruct (Piece.used q); cbn [negb length]; lia.
Qed.

(** X16.  When [isGameOver] returns, [getGameState] returns a summary
    that agrees with the board and with itself: its game-over flag is
    [isGameOver]'s answer and its winner list is non-null exactly when
    that flag is [true]; [totalMoves] is the length of the move history;
    and there is one entry per player, in order, with the player's id,
    score and colour, whose [remainingPieces] plus the number of the
    player's used pieces is the size of the player's piece set. *)
Theorem getGameState_is_consistent (b : Board.t) (over : bool) :
  isGameOver b = Ret over →
  ∃ g, getGameState b = Ret g ∧
       GameState.isGameOver g = over ∧
       (is_Some (GameState.winner g) ↔ GameState.isGameOver g = true) ∧
       getWinner b = Ret (GameState.winner g) ∧
       GameState.status g = Board.status b ∧
       GameState.currentPlayer g = Board.currentPlayer b ∧
       GameState.totalMoves g = Z.of_nat (length (Board.moveHistory b)) ∧
       Forall2 (fun (pl : Player.t) (s : PlayerSummary.t) =>
                  PlayerSummary.id s = Player.id pl ∧
                  PlayerSummary.score s = Player.score pl ∧
                  PlayerSummary.color s = Player.color pl ∧
                  0 <= PlayerSummary.remainingPieces s ∧
                  PlayerSummary.remainingPieces s + Z.of_nat (placedCount pl) =
                    Z.of_nat (length (Player.pieces pl)))
               (Board.players b) (GameState.players g).
Proof.
  intros Hover. unfold getGameState, getWinner. rewrite Hover.
  cbn [mbind outcome_bind].
  assert (Hpl : Forall2 (fun (pl : Player.t) (s : PlayerSummary.t) =>
                  PlayerSummary.id s = Player.id pl ∧
                  PlayerSummary.score s = Player.score pl ∧
                  PlayerSummary.color s = Player.color pl ∧
                  0 <= PlayerSummary.remainingPieces s ∧
                  PlayerSummary.remainingPieces s + Z.of_nat (placedCount pl) =
                    Z.of_nat (length (Player.pieces pl)))
               (Board.players b) (summarize <$> Board.players b)).
  { apply Forall2_fmap_r, Forall_Forall2_diag, Forall_forall. intros pl _.
    cbn [compose summarize PlayerSummary.id PlayerSummary.score
         PlayerSummary.color PlayerSummary.remainingPieces].
    pose proof (filter_used_split (Player.pieces pl)).
    unfold placedCount. repeat split; lia. }
  destruct over; cbn [negb mbind outcome_bind]; eexists; (split; [done|]);
    cbn [GameState.isGameOver GameState.winner GameState.status
         GameState.currentPlayer GameState.totalMoves GameState.players];
    repeat split; try done; try (by intros [? ?]); eauto.
Qed.

Lemma getGameState_witness :
  ∃ g, getGameState finishedBoard = Ret g ∧ GameState.isGameOver g = true.
Proof.
  destruct (getGameState_is_consistent finishedBoard true)
    as (g & Hg & Hover & _).
  - reflexivity.
  - exists g. split; [exact Hg|exact Hover].
Defined.

(** ** Starting a game *)

(** X17.  [startGame] raises its invalid-argument error exactly for an
    absent board or a player count outside 2 to 4, and otherwise returns.
    The board it returns is in progress with player 1 to move and has the
    first [min playerCount n] of the [n] players it was given: a count
    above the number of players is not an error.  Grid, scores, pieces,
    history and last move are carried over unchanged, also in the middle
    of a game.  Starting twice is starting once with the smaller
    count. *)
Theorem startGame_checks_and_truncates (board : option Board.t) (n : Z) :
  (startGame board n = Throw InvalidArgument ↔
   board = None ∨ n < 2 ∨ 4 < n) ∧
  (∀ e, startGame board n = Throw e → e = InvalidArgument) ∧
  (∀ b, board = Some b → 2 <= n <= 4 →
     ∃ b', startGame board n = Ret b' ∧
           Board.players b' = take (Z.to_nat n) (Board.players b) ∧
           length (Board.players b') =
             min (Z.to_nat n) (length (Board.players b)) ∧
           Board.status b' = IN_PROGRESS ∧
           Board.currentPlayer b' = Some 1 ∧
           Board.grid b' = Board.grid b ∧ Board.size b' = Board.size b ∧
           Board.moveHistory b' = Board.moveHistory b ∧
           Board.lastMove b' = Board.lastMove b ∧
           ∀ m, 2 <= m <= 4 →
                startGame (Some b') m = startGame (Some b) (Z.min m n)).
Proof.
  unfold startGame. destruct board as [b|].
  - destruct (Z.ltb_spec n 2); [|destruct (Z.ltb_spec 4 n)]; cbn [orb].
    + split; [split; [by auto|done]|]. split; [by intros e [= <-]|].
      intros b0 _ ?. lia.
    + split; [split; [by auto|done]|]. split; [by intros e [= <-]|].
      intros b0 _ ?. lia.
    + split; [split; [done|intros [?|?]; [done|lia]]|]. split; [done|].
      intros b0 [= <-] _. eexists. split; [done|].
      cbn [Board.players Board.status Board.currentPlayer Board.grid
           Board.size Board.moveHistory Board.lastMove].
      split; [done|]. split; [apply length_take|]. repeat (split; [done|]).
      intros m Hm.
      destruct (Z.ltb_spec m 2); [lia|]. destruct (Z.ltb_spec 4 m); [lia|].
      destruct (Z.ltb_spec (Z.min m n) 2); [lia|].
      destruct (Z.ltb_spec 4 (Z.min m n)); [lia|]. cbn [orb].
      by rewrite take_take, Z2Nat.inj_min.
  - split; [split; [by auto|done]|]. split; [by intros e [= <-]|]. done.
Qed.

(** ** Two of the earlier lemmas at work *)

Lemma game_over_refuses_witness :
  placePiece 0 blockedBoard (Piece.mk "I1" [(0, 0)] false 2 true) 0 0 1 =
  Throw IllegalMove.
Proof.
  apply (game_over_refuses_own_unused_pieces 0 blockedBoard
           (Player.mk 1 0 [pieceI1] "red") pieceI1 2 true 0 0).
  - reflexivity.
  - vm_compute. reflexivity.
  - vm_compute. reflexivity.
  - apply list_elem_of_here.
  - reflexivity.
  - lia.
  - cbn. lia.
  - cbn. lia.
Defined.

Lemma score_is_sum_of_placed_cells_witness :
  ∃ p1, findPlayer afterFirstMove 1 = Some p1 ∧
        Player.score p1 =
          placedCells (Board.moveHistory afterFirstMove) (Player.id p1).
Proof.
  eexists. split; [vm_compute; reflexivity|].
  apply (score_is_sum_of_placed_cells afterFirstMove).
  - exact reachable_afterFirstMove.
  - apply list_elem_of_here.
Defined.

(** * The page controller *)

(** ** Turning and flipping a piece on the page *)

Lemma iter_rotate_wrap (s : Shape) :
  normalize s = s → Nat.iter 4 rotatePiece s = s.
Proof.
  intros Hn. cbn [Nat.iter nat_rect]. by rewrite rotatePiece_four_times.
Qed.

(** X20.  The page's rotate handler leaves a used piece alone and
    otherwise only steps the rotation count, keeping it within 0 to 3;
    four steps bring the piece back.  The wrap from 3 to 0 loses nothing:
    for a base shape in normal form (every catalog piece) the engine
    resolves the piece after the handler to the same shape as with the
    count simply increased by one, which for an unflipped piece is
    [rotatePiece] of the shape it resolved to before.  The flip handler
    leaves a used piece alone as well; two flips are no change, and an
    unflipped piece resolves after the handler to [flipPiece] of the
    shape it resolved to before. *)
Theorem page_rotate_and_flip_controls (piece : Piece.t) :
  (Piece.used piece = true →
   Main.rotatePiece piece = piece ∧ Main.flipPiece piece = piece) ∧
  Main.flipPiece (Main.flipPiece piece) = piece ∧
  (Piece.used piece = false → 0 <= Piece.rotation piece < 4 →
   0 <= Piece.rotation (Main.rotatePiece piece) < 4 ∧
   Main.rotatePiece
     (Main.rotatePiece (Main.rotatePiece (Main.rotatePiece piece))) = piece ∧
   (normalize (Piece.shape piece) = Piece.shape piece →
    getTransformedShape (Main.rotatePiece piece) =
      getTransformedShape (withRotation (Piece.rotation piece + 1) piece) ∧
    (Piece.flipped piece = false →
     getTransformedShape (Main.rotatePiece piece) =
       rotatePiece (getTransformedShape piece) ∧
     getTransformedShape (Main.flipPiece piece) =
       flipPiece (getTransformedShape piece)))).
Proof.
  destruct piece as [pid sh us r fl].
  unfold Main.rotatePiece, Main.flipPiece, withRotation, getTransformedShape.
  cbn [Piece.id Piece.shape Piece.used Piece.rotation Piece.flipped].
  split; [by intros ->|]. split.
  { by destruct us, fl. }
  intros -> Hr. cbn [Piece.used Piece.rotation].
  assert (r = 0 ∨ r = 1 ∨ r = 2 ∨ r = 3) as Hcases by lia.
  split; [apply Z.rem_bound_pos; lia|].
  split; [by destruct Hcases as [-> | [-> | [-> | ->]]]|].
  intros Hn.
  assert (Hwrap : Nat.iter (Z.to_nat (Z.rem (r + 1) 4)) rotatePiece sh =
                  Nat.iter (Z.to_nat (r + 1)) rotatePiece sh).
  { destruct Hcases as [-> | [-> | [-> | ->]]]; try done.
    change (sh = Nat.iter 4 rotatePiece sh). by rewrite iter_rotate_wrap. }
  cbn [Piece.id Piece.shape Piece.used Piece.rotation Piece.flipped negb].
  rewrite Hwrap. split; [done|]. intros ->. split; [|done].
  replace (Z.to_nat (r + 1)) with (S (Z.to_nat r)) by lia. done.
Qed.

(** ** A click on the board *)

Lemma getNextPlayer_ids (b1 b2 : Board.t) (pid : Z) :
  Player.id <$> Board.players b1 = Player.id <$> Board.players b2 →
  getNextPlayer b1 pid = getNextPlayer b2 pid.
Proof. intros Hids. unfold getNextPlayer. by rewrite Hids. Qed.

Lemma getNextPlayer_after_placePiece (now : Z) (b b' : Board.t)
  (piece : Piece.t) (row col pid : Z) :
  placePiece now b piece row col pid = Ret b' →
  getNextPlayer b' pid = Board.currentPlayer b'.
Proof.
  intros Hp.
  destruct (placePiece_Ret_inv _ _ _ _ _ _ _ Hp)
    as (_ & _ & _ & _ & Hpl & -> & _).
  apply getNextPlayer_ids. rewrite Hpl. apply updatePlayer_ids.
Qed.




(** ** Whole sessions on the page *)

Lemma getNextPlayer_of_four (b : Board.t) (i : nat) :
  Player.id <$> Board.players b = [1; 2; 3; 4] →
  (i < 4)%nat →
  getNextPlayer b (Z.of_nat i + 1) = Some (Z.of_nat ((i + 1) `mod` 4) + 1).
Proof.
  intros Hids Hi. unfold getNextPlayer. rewrite Hids.
  destruct i as [|[|[|[|i]]]]; [done..|lia].
Qed.

Lemma handle_Select_fields (piece : Piece.t) (st : Main.state) :
  Main.gameBoard (Main.selectPiece piece st) = Main.gameBoard st ∧
  Main.currentPlayer (Main.selectPiece piece st) = Main.currentPlayer st.
Proof. unfold Main.selectPiece. by destruct (Piece.used piece). Qed.

Lemma initializeGame_Ret :
  Main.initializeGame = Ret (Main.mk startedBoard None (Some 1)).
Proof. reflexivity. Qed.

Lemma reachable_startedBoard : reachable startedBoard.
Proof.
  apply (reach_start createBoard 4); [apply reach_create|].
  vm_compute. reflexivity.
Defined.

Lemma handleBoardClick_click_cases (now row col : Z) (st st' : Main.state)
  (fb : Main.feedback) :
  Main.handleBoardClick now row col st = (st', fb) →
  st' = st ∨
  ∃ piece cur b',
    Main.selectedPiece st = Some piece ∧ Main.currentPlayer st = Some cur ∧
    placePiece now (Main.gameBoard st) piece row col cur = Ret b' ∧
    st' = Main.mk b' None (Board.currentPlayer b').
Proof.
  unfold Main.handleBoardClick.
  destruct (Main.selectedPiece st) as [piece|]; [|intros [= <- _]; by left].
  destruct (Main.currentPlayer st) as [cur|]; [|intros [= <- _]; by left].
  destruct (canPlacePiece _ _ _ _ _) as [[|]|e];
    [|intros [= <- _]; by left..].
  destruct (placePiece now _ _ _ _ _) as [b'|e] eqn:Hp;
    [|intros [= <- _]; by left].
  cbv zeta. rewrite (getNextPlayer_after_placePiece _ _ _ _ _ _ _ Hp).
  intros Hrun. right. exists piece, cur, b'.
  split; [done|]. split; [done|]. split; [done|].
  by destruct (isGameOver b') as [[|]|]; injection Hrun as <- _.
Qed.

(** X22.  However the user picks pieces and clicks cells after
    [initializeGame], the page's board is one the engine reaches, the
    page's current player is the board's [currentPlayer], and the moves
    were made in turn: the move at position [i] of the history (counting
    from 0) is by player [i mod 4 + 1], and the player to move is the one
    after the last mover.  The page thus keeps the turn order that the
    engine itself does not check. *)
Theorem page_session_keeps_turn_order (evs : list Main.event)
  (st0 : Main.state) :
  Main.initializeGame = Ret st0 →
  reachable (Main.gameBoard (Main.run evs st0)) ∧
  Main.currentPlayer (Main.run evs st0) =
    Board.currentPlayer (Main.gameBoard (Main.run evs st0)) ∧
  Main.currentPlayer (Main.run evs st0) =
    Some (Z.of_nat
            (length (Board.moveHistory (Main.gameBoard (Main.run evs st0)))
             `mod` 4) + 1) ∧
  Move.playerId <$> Board.moveHistory (Main.gameBoard (Main.run evs st0)) =
    (fun i : nat => Z.of_nat (i `mod` 4) + 1) <$>
      seq 0 (length (Board.moveHistory (Main.gameBoard (Main.run evs st0)))).
Proof.
  rewrite initializeGame_Ret. intros [= <-].
  set (Inv := fun st : Main.state =>
    reachable (Main.gameBoard st) ∧
    Player.id <$> Board.players (Main.gameBoard st) = [1; 2; 3; 4] ∧
    Main.currentPlayer st = Board.currentPlayer (Main.gameBoard st) ∧
    Main.currentPlayer st =
      Some (Z.of_nat (length (Board.moveHistory (Main.gameBoard st)) `mod` 4)
            + 1) ∧
    Move.playerId <$> Board.moveHistory (Main.gameBoard st) =
      (fun i : nat => Z.of_nat (i `mod` 4) + 1) <$>
        seq 0 (length (Board.moveHistory (Main.gameBoard st)))).
  assert (Hstep : ∀ ev st, Inv st → Inv (Main.handle ev st)).
  { intros [piece|now row col] st (Hr & Hids & Hsync & Hcur & Hhist).
    - unfold Inv. cbn [Main.handle].
      destruct (handle_Select_fields piece st) as [-> ->]. done.
    - cbn [Main.handle].
      destruct (Main.handleBoardClick now row col st) as [st' fb] eqn:Hrun.
      cbn [fst].
      destruct (handleBoardClick_click_cases _ _ _ _ _ _ Hrun)
        as [->|(piece & cur & b' & Hsel & Hcur' & Hp & ->)]; [done|].
      destruct (placePiece_Ret_inv _ _ _ _ _ _ _ Hp)
        as (_ & _ & _ & _ & Hpl & Hcp & _ & Hh & _).
      unfold Inv. cbn [Main.gameBoard Main.currentPlayer].
      assert (Hids' : Player.id <$> Board.players b' = [1; 2; 3; 4]).
      { rewrite Hpl, updatePlayer_ids. done. }
      set (n := length (Board.moveHistory (Main.gameBoard st))) in *.
      assert (cur = Z.of_nat (n `mod` 4) + 1) as -> by congruence.
      split; [by eapply reach_place|]. split; [done|]. split; [done|].
      rewrite Hh, length_app. cbn [length]. fold n.
      split.
      + rewrite Hcp, getNextPlayer_of_four;
          [|done|apply Nat.mod_upper_bound; lia].
        by rewrite Nat.Div0.add_mod_idemp_l.
      + rewrite fmap_app, Hhist. cbn [fmap list_fmap Move.playerId].
        replace (n + 1)%nat with (S n) by lia.
        by rewrite seq_S, fmap_app. }
  assert (Hrun : ∀ evs st, Inv st → Inv (Main.run evs st)).
  { intros evs'. induction evs' as [|ev rest IH]; intros st Hst; [exact Hst|].
    apply (IH (Main.handle ev st)), Hstep, Hst. }
  destruct (Hrun evs (Main.mk startedBoard None (Some 1)))
    as (Hr & _ & Hsync & Hcur & Hhist).
  { unfold Inv. cbn [Main.gameBoard Main.currentPlayer].
    split; [apply reachable_startedBoard|]. done. }
  done.
Qed.

Lemma page_session_witness :
  Main.currentPlayer
    (Main.run [Main.Select pieceI1; Main.Click 0 0 0]
              (Main.mk startedBoard None (Some 1))) =
  Board.currentPlayer
    (Main.gameBoard
       (Main.run [Main.Select pieceI1; Main.Click 0 0 0]
                 (Main.mk startedBoard None (Some 1)))).
Proof.
  apply (page_session_keeps_turn_order
           [Main.Select pieceI1; Main.Click 0 0 0]
           (Main.mk startedBoard None (Some 1))).
  reflexivity.
Defined.

Lemma scoresConsistent_startedBoard : scoresConsistent startedBoard.
Proof.
  eapply (scoresConsistent_startGame createBoard _ 4);
    [apply scoresConsistent_createBoard|reflexivity].
Qed.

(** X23.  When every piece the user picks is one the page offers (an
    unused piece of the current player's set on the current board), then
    after any sequence of picks and clicks from [initializeGame] the
    selected piece, if there is one, is still such a piece, and each
    player's score is the sum of the cell counts of that player's used
    pieces. *)
Theorem page_session_scores_are_used_cells (evs : list Main.event)
  (st0 : Main.state) (player : Player.t) :
  Main.initializeGame = Ret st0 →
  offeredRun evs st0 →
  player ∈ Board.players (Main.gameBoard (Main.run evs st0)) →
  Player.score player = usedCells player ∧
  reachableOwn (Main.gameBoard (Main.run evs st0)) ∧
  (∀ piece, Main.selectedPiece (Main.run evs st0) = Some piece →
            pageOffers (Main.run evs st0) piece).
Proof.
  rewrite initializeGame_Ret. intros [= <-].
  set (Inv := fun st : Main.state =>
    scoresConsistent (Main.gameBoard st) ∧
    reachableOwn (Main.gameBoard st) ∧
    ∀ piece, Main.selectedPiece st = Some piece → pageOffers st piece).
  assert (Hrun : ∀ evs' st, Inv st → offeredRun evs' st →
                            Inv (Main.run evs' st)).
  { intros evs'. induction evs' as [|ev rest IH]; intros st Hst Hoff;
      [exact Hst|].
    destruct Hoff as [Hev Hoff].
    apply (IH (Main.handle ev st)); [|exact Hoff]. clear IH Hoff.
    destruct Hst as (Hsc & Hro & Hsel).
    destruct ev as [piece|now row col]; cbn [Main.handle].
    - destruct Hev as [Hu Hown]. unfold Main.selectPiece. rewrite Hu.
      unfold Inv. cbn [Main.gameBoard Main.selectedPiece].
      split; [done|]. split; [done|]. intros p [= <-]. by split.
    - destruct (Main.handleBoardClick now row col st) as [st' fb] eqn:Hclick.
      cbn [fst].
      destruct (handleBoardClick_click_cases _ _ _ _ _ _ Hclick)
        as [->|(piece & cur & b' & Hs & Hcur & Hp & ->)]; [done|].
      destruct (Hsel _ Hs) as (_ & cur' & Hcur' & Hown).
      assert (cur' = cur) as -> by congruence.
      unfold Inv. cbn [Main.gameBoard Main.selectedPiece].
      split; [by eapply scoresConsistent_placePiece|].
      split; [by eapply reachOwn_place|]. done. }
  intros Hoff Hin.
  destruct (Hrun evs (Main.mk startedBoard None (Some 1)))
    as ((_ & Hall) & Hro & Hsel); [|done|].
  { unfold Inv. cbn [Main.gameBoard Main.selectedPiece].
    split; [apply scoresConsistent_startedBoard|]. split; [|done].
    apply (reachOwn_start createBoard 4); [apply reachOwn_create|reflexivity]. }
  split; [|done].
  eapply Forall_forall in Hall; [|exact Hin]. apply Hall.
Qed.

Lemma pageOffers_startedBoard_I1 :
  pageOffers (Main.mk startedBoard None (Some 1)) pieceI1.
Proof.
  split; [reflexivity|]. exists 1. split; [reflexivity|].
  exact ownPiece_startedBoard_I1.
Defined.

Lemma page_session_scores_witness :
  ∃ p1, findPlayer
          (Main.gameBoard
             (Main.run [Main.Select pieceI1; Main.Click 0 0 0]
                       (Main.mk startedBoard None (Some 1)))) 1 = Some p1 ∧
        Player.score p1 = usedCells p1.
Proof.
  eexists. split; [vm_compute; reflexivity|].
  eapply (page_session_scores_are_used_cells
            [Main.Select pieceI1; Main.Click 0 0 0]
            (Main.mk startedBoard None (Some 1))).
  - reflexivity.
  - split; [exact pageOffers_startedBoard_I1|]. split; [exact I|exact I].
  - vm_compute. apply list_elem_of_here.
Defined.

Lemma piecesPlacedOnce_placePiece (now : Z) (b b' : Board.t)
  (piece : Piece.t) (row col pid : Z) :
  scoresConsistent b → piecesPlacedOnce b →
  ownPiece b pid piece →
  placePiece now b piece row col pid = Ret b' →
  piecesPlacedOnce b'.
Proof.
  intros [Hnd Hall] [Hdist Hused]
         (pl0 & q0 & Hfind & Hq0 & Hq0id & _ & Hq0used) Hp.
  destruct (placePiece_Ret_inv _ _ _ _ _ _ _ Hp)
    as (Hcan & _ & _ & _ & Hpl & _ & _ & Hh & _).
  destruct (canPlacePiece_true _ _ _ _ _ Hcan) as (Hunused & _).
  apply findPlayer_Some in Hfind as [Hpl0 Hpl0id].
  rewrite Forall_forall in Hall.
  assert (Hmark : ∀ pl q,
            pl ∈ Board.players b → q ∈ Player.pieces pl →
            Piece.used q = true ∨
              (Player.id pl = pid ∧ Piece.id q = Piece.id piece) →
            ∃ pl' q', pl' ∈ Board.players b' ∧ Player.id pl' = Player.id pl ∧
                      q' ∈ Player.pieces pl' ∧ Piece.id q' = Piece.id q ∧
                      Piece.used q' = true).
  { intros pl q Hin Hq Hor.
    pose proof (list_elem_of_fmap_2
                  (updatePlayer piece (getTransformedShape piece) pid)
                  _ pl Hin) as Hin'.
    rewrite <- Hpl in Hin'.
    destruct (decide (Player.id pl = pid)) as [Heq|Hne].
    - rewrite (updatePlayer_same _ _ _ _ Heq) in Hin'.
      eexists _, (markUsed piece q). split; [exact Hin'|].
      cbn [Player.id Player.pieces]. split; [done|].
      split; [by apply list_elem_of_fmap_2|].
      destruct (markUsed_fields piece q) as (-> & _ & _ & _ & ->).
      split; [done|]. case_decide; [done|]. destruct Hor as [?|[_ ?]]; done.
    - rewrite (updatePlayer_other _ _ _ _ Hne) in Hin'.
      exists pl, q. repeat (split; [done|]).
      destruct Hor as [?|[? _]]; done. }
  split.
  - rewrite Hh, fmap_app. apply NoDup_app. split; [done|]. split.
    + intros [p i] Hin Hnew. apply list_elem_of_singleton in Hnew.
      cbn [fmap list_fmap Move.playerId Move.pieceId] in Hnew.
      injection Hnew as -> ->.
      apply list_elem_of_fmap in Hin as (m & [= Hmp Hmi] & Hm).
      destruct (Hused m Hm) as (pl & q & Hin & Hid & Hq & Hqid & Hqu).
      assert (pl = pl0) as ->.
      { eapply (NoDup_fmap_eq Player.id); [exact Hnd|done|done|congruence]. }
      assert (q = q0) as ->.
      { eapply (NoDup_fmap_eq Piece.id);
          [exact (proj1 (Hall _ Hpl0))|done|done|congruence]. }
      congruence.
    + apply NoDup_singleton.
  - intros m Hm. rewrite Hh in Hm. apply elem_of_app in Hm as [Hm|Hm].
    + destruct (Hused m Hm) as (pl & q & Hin & Hid & Hq & Hqid & Hqu).
      destruct (Hmark pl q Hin Hq (or_introl Hqu))
        as (pl' & q' & ? & ? & ? & ? & ?).
      exists pl', q'. repeat split; try done; congruence.
    + apply list_elem_of_singleton in Hm as ->.
      cbn [Move.playerId Move.pieceId].
      destruct (Hmark pl0 q0 Hpl0 Hq0 (or_intror (conj Hpl0id Hq0id)))
        as (pl' & q' & ? & ? & ? & ? & ?).
      exists pl', q'. repeat split; try done; congruence.
Qed.

(** X24.  On the page no piece is placed twice.  When every piece the
    user picks is one the page offers, then after any sequence of picks
    and clicks from [initializeGame] no two moves of the history are by
    the same player with the same piece id, and the piece of every move
    is marked used in the piece set of the player who made it. *)
Theorem page_session_places_each_piece_once (evs : list Main.event)
  (st0 : Main.state) :
  Main.initializeGame = Ret st0 →
  offeredRun evs st0 →
  piecesPlacedOnce (Main.gameBoard (Main.run evs st0)).
Proof.
  rewrite initializeGame_Ret. intros [= <-].
  set (Inv := fun st : Main.state =>
    scoresConsistent (Main.gameBoard st) ∧
    piecesPlacedOnce (Main.gameBoard st) ∧
    ∀ piece, Main.selectedPiece st = Some piece → pageOffers st piece).
  assert (Hrun : ∀ evs' st, Inv st → offeredRun evs' st →
                            Inv (Main.run evs' st)).
  { intros evs'. induction evs' as [|ev rest IH]; intros st Hst Hoff;
      [exact Hst|].
    destruct Hoff as [Hev Hoff].
    apply (IH (Main.handle ev st)); [|exact Hoff]. clear IH Hoff.
    destruct Hst as (Hsc & Honce & Hsel).
    destruct ev as [piece|now row col]; cbn [Main.handle].
    - destruct Hev as [Hu Hown]. unfold Main.selectPiece. rewrite Hu.
      unfold Inv. cbn [Main.gameBoard Main.selectedPiece].
      split; [done|]. split; [done|]. intros p [= <-]. by split.
    - destruct (Main.handleBoardClick now row col st) as [st' fb] eqn:Hclick.
      cbn [fst].
      destruct (handleBoardClick_click_cases _ _ _ _ _ _ Hclick)
        as [->|(piece & cur & b' & Hs & Hcur & Hp & ->)]; [done|].
      destruct (Hsel _ Hs) as (_ & cur' & Hcur' & Hown).
      assert (cur' = cur) as -> by congruence.
      unfold Inv. cbn [Main.gameBoard Main.selectedPiece].
      split; [by eapply scoresConsistent_placePiece|].
      split; [by eapply piecesPlacedOnce_placePiece|]. done. }
  intros Hoff.
  destruct (Hrun evs (Main.mk startedBoard None (Some 1)))
    as (_ & Honce & _); [|done|done].
  unfold Inv. cbn [Main.gameBoard Main.selectedPiece].
  split; [apply scoresConsistent_startedBoard|]. split; [|done].
  split; [constructor|]. by intros m ?%elem_of_nil.
Qed.

Lemma page_session_once_witness :
  piecesPlacedOnce
    (Main.gameBoard
       (Main.run [Main.Select pieceI1; Main.Click 0 0 0]
                 (Main.mk startedBoard None (Some 1)))).
Proof.
  apply (page_session_places_each_piece_once
           [Main.Select pieceI1; Main.Click 0 0 0]
           (Main.mk startedBoard None (Some 1))).
  - reflexivity.
  - split; [exact pageOffers_startedBoard_I1|]. split; [exact I|exact I].
Defined.

(** * More on geometry and cells *)

(** X25.  Two quarter turns are the half turn: they send the cell
    [(r, c)] of a shape to [(maxR - r, maxC - c)], with [maxR] and [maxC]
    the largest row and column offsets of the shape.  Four quarter turns
    give the shape in normal form, for every shape, so from the first
    turn on every four further turns change nothing. *)
Theorem half_turn_and_full_turn (s : Shape) (n : nat) :
  rotatePiece (rotatePiece s) =
    (fun c : Cell => (math_max (fst <$> s) - c.1, math_max (snd <$> s) - c.2))
      <$> s ∧
  rotatePiece (rotatePiece (rotatePiece (rotatePiece s))) = normalize s ∧
  Nat.iter (S n + 4) rotatePiece s = Nat.iter (S n) rotatePiece s.
Proof.
  split; [|split].
  - destruct (decide (s = [])) as [->|Hne]; [done|]. by apply rotatePiece_twice.
  - apply rotatePiece_four_times.
  - rewrite Nat.add_comm, Nat.iter_add.
    change (Nat.iter 4 rotatePiece ?t)
      with (rotatePiece (rotatePiece (rotatePiece (rotatePiece t)))).
    rewrite rotatePiece_four_times. apply iter_rotate_normal. lia.
Qed.

(** X26.  [isCellEmpty] answers [false] for a position off the board
    without looking at the grid, so it does not throw there even when the
    grid is not [size] by [size]; an answer [true] means the position is
    on the board, in the grid, and holds 0.  The separate bounds test in
    the loop of [canPlacePiece] therefore never decides anything.  On a
    square grid [isCellEmpty] never throws and is [true] exactly for the
    cells whose owner is 0. *)
Theorem isCellEmpty_checks_bounds_first (b : Board.t) (row col : Z) :
  (isValidPosition row col b = false → isCellEmpty row col b = Ret false) ∧
  (isCellEmpty row col b = Ret true →
   isValidPosition row col b = true ∧ owner b (row, col) = Some 0) ∧
  (squareGrid b →
   isCellEmpty row col b = Ret (bool_decide (owner b (row, col) = Some 0))).
Proof.
  unfold isCellEmpty. split; [by intros ->|]. split.
  - destruct (isValidPosition row col b); [|done]. cbn [negb].
    destruct (readCell b row col) as [v|e] eqn:Hread; [|done].
    apply readCell_Ret in Hread as ->. cbn [mbind outcome_bind].
    intros [= Heq]. by apply strictEq_true in Heq.
  - intros Hsq. destruct (isValidPosition row col b) eqn:Hv; cbn [negb].
    + apply isValidPosition_onBoard in Hv.
      rewrite (readCell_onBoard _ _ _ Hsq Hv). cbn [mbind outcome_bind].
      f_equal. apply eq_true_iff_eq.
      by rewrite strictEq_true, bool_decide_eq_true.
    + apply isValidPosition_false in Hv.
      rewrite bool_decide_eq_false_2; [done|]. intros Ho.
      apply Hv, (owner_onBoard _ _ Hsq). by rewrite Ho.
Qed.

(** ** The theorems above at work *)

Lemma normal_form_witness :
  math_min (fst <$> rotatePiece [(0, 0); (1, 0)]) = 0.
Proof.
  apply (rotate_and_flip_return_normal_form [(0, 0); (1, 0)]).
  discriminate.
Defined.

Lemma canPlacePiece_refusals_witness :
  canPlacePiece startedBoard (Piece.mk "I1" [(0, 0)] true 0 false) 0 0 1 =
  Ret false.
Proof.
  apply (proj1 (canPlacePiece_refusals startedBoard
                  (Piece.mk "I1" [(0, 0)] true 0 false) 0 0 1)).
  reflexivity.
Defined.

Lemma NoDup_ids_startedBoard :
  NoDup (Player.id <$> Board.players startedBoard).
Proof. apply (bool_decide_unpack _). vm_compute. exact I. Defined.

Lemma getNextPlayer_round_robin_witness : getNextPlayer startedBoard 4 = Some 1.
Proof.
  apply (proj2 (getNextPlayer_round_robin startedBoard)
           NoDup_ids_startedBoard 3%nat 4).
  reflexivity.
Defined.

Lemma squareGrid_blockedBoard : squareGrid blockedBoard.
Proof. split; [reflexivity|]. repeat constructor. Defined.

Lemma isGameOver_witness :
  ∃ v, isGameOver blockedBoard = Ret v ∧
       (v = true ↔
        ∀ player, player ∈ Board.players blockedBoard →
                  canPlayerMove blockedBoard (Player.id player) = Ret false).
Proof.
  apply (isGameOver_by_status_then_by_moves blockedBoard).
  - reflexivity.
  - exact squareGrid_blockedBoard.
Defined.

Lemma startGame_witness :
  ∃ b', startGame (Some createBoard) 3 = Ret b' ∧
        Board.players b' = take (Z.to_nat 3) (Board.players createBoard).
Proof.
  destruct (proj2 (proj2 (startGame_checks_and_truncates (Some createBoard) 3))
              createBoard eq_refl) as (b' & Hs & Hp & _).
  - lia.
  - exists b'. split; [exact Hs|exact Hp].
Defined.

Lemma page_rotate_witness :
  0 <= Piece.rotation (Main.rotatePiece pieceI1) < 4.
Proof.
  apply (page_rotate_and_flip_controls pieceI1).
  - reflexivity.
  - cbn. lia.
Defined.

Lemma isCellEmpty_witness :
  isCellEmpty (-1) 0 startedBoard = Ret false.
Proof.
  apply (proj1 (isCellEmpty_checks_bounds_first startedBoard (-1) 0)).
  reflexivity.
Defined.
